(** * switchy.apps.measure.metrics: the capped metrics buffer and its call statistics

    A shallow embedding of [src/switchy/apps/measure/metrics.py]:
    [moving_avg], [CappedArray] ([_view], [view], [insert]) and
    [CallMetrics] ([seizure_fail_rate], [answer_seizure_ratio], [inst_rate],
    [wm_rate]), together with the part of Python and numpy they rely on.

    - [np.float64] and Python [float] are IEEE 754 binary64: they are modelled
      by the executable specification [spec_float] with [prec = 53] and
      [emax = 1024], so every operation rounds as the hardware does.
    - [np.uint32] is a [Z] whose subtraction wraps modulo [2^32].
    - A numpy basic slice is a view: it aliases the memory of the array it
      was taken from.  The buffer's rows live in one shared memory ([mem]) and
      an [ndarray] value is a window on it.
    - [ndarray.sort] is numpy's default sort, which is not stable.  It is a
      parameter, [sort], of [inst_rate] and [wm_rate], and the properties
      assume only that it returns an ascending permutation of the rows
      ([sort_contract]). *)

From Stdlib Require Import ZArith List Bool Lia Permutation.
From Stdlib Require Import Floats.SpecFloat.
Import ListNotations.

Open Scope Z_scope.

(** ** IEEE 754 binary64 *)

Module F64.

Definition prec : Z := 53.
Definition emax : Z := 1024.

Abbreviation float := spec_float (only parsing).

(** [float(z)] for a Python integer, [np.float64(z)] for a numpy one:
    the integer rounded to nearest, ties to even.  (Python raises
    [OverflowError] where this gives an infinity, from [2^1024] on; the
    row counts and index differences converted below never get there.) *)
Definition of_Z (z : Z) : float := binary_normalize prec emax z 0 false.

Definition add : float -> float -> float := SFadd prec emax.
Definition sub : float -> float -> float := SFsub prec emax.
Definition div : float -> float -> float := SFdiv prec emax.

Definition eqb : float -> float -> bool := SFeqb.
Definition ltb : float -> float -> bool := SFltb.
Definition leb : float -> float -> bool := SFleb.

Definition is_nan (x : float) : bool :=
  match x with S754_nan => true | _ => false end.

Definition is_finite (x : float) : bool :=
  match x with S754_zero _ | S754_finite _ _ _ => true | _ => false end.

Definition valid (x : float) : bool := valid_binary prec emax x.

Definition zero : float := S754_zero false.
Definition one : float := of_Z 1.
Definition infinity : float := S754_infinity false.
Definition nan : float := S754_nan.

End F64.

Abbreviation f64 := spec_float (only parsing).

(** ** Python exceptions *)

Inductive exn : Set := ZeroDivisionError | IndexError | ValueError.

Inductive result (A : Type) : Type :=
| Ok (a : A)
| Raise (e : exn).

Arguments Ok {A} a.
Arguments Raise {A} e.

Definition bind {A B : Type} (r : result A) (k : A -> result B) : result B :=
  match r with
  | Ok a => k a
  | Raise e => Raise e
  end.

Notation "x <- r ;; k" := (bind r (fun x => k))
  (at level 61, r at next level, right associativity).
Notation "' pat <- r ;; k" := (bind r (fun x => match x with pat => k end))
  (at level 61, pat pattern, r at next level, right associativity).

(** Python's [a / b] on two floats raises when [b == 0.0] (both zeros). *)
Definition float_truediv (a b : f64) : result f64 :=
  if F64.eqb b F64.zero then Raise ZeroDivisionError else Ok (F64.div a b).

(** ** numpy: one-dimensional arrays *)

(** A slice bound [k] of [a[k:]] or [a[:k]] on an array of [n] items. *)
Definition slice_bound (n : nat) (k : Z) : nat :=
  if k <? 0 then Z.to_nat (Z.max 0 (Z.of_nat n + k))
  else Nat.min n (Z.to_nat k).

(** [a[k:]] *)
Definition slice_from {A : Type} (a : list A) (k : Z) : list A :=
  skipn (slice_bound (length a) k) a.

(** [a[:k]] *)
Definition slice_upto {A : Type} (a : list A) (k : Z) : list A :=
  firstn (slice_bound (length a) k) a.

(** [a[i]] for an integer [i]: negative indices count from the end. *)
Definition getitem {A : Type} (a : list A) (i : Z) : result A :=
  let n := Z.of_nat (length a) in
  let j := if i <? 0 then n + i else i in
  if (0 <=? j) && (j <? n)
  then match nth_error a (Z.to_nat j) with
       | Some x => Ok x
       | None => Raise IndexError
       end
  else Raise IndexError.

(** [a[i] = v] for [i] in range; the other items stay. *)
Fixpoint setitem {A : Type} (a : list A) (i : nat) (v : A) : list A :=
  match a, i with
  | [], _ => []
  | _ :: a', O => v :: a'
  | x :: a', S i' => x :: setitem a' i' v
  end.

Fixpoint map2 {A B C : Type} (f : A -> B -> C) (a : list A) (b : list B) : list C :=
  match a, b with
  | x :: a', y :: b' => f x y :: map2 f a' b'
  | _, _ => []
  end.

(** An elementwise binary operation with numpy's broadcasting of shapes
    [(n,)] and [(m,)]: equal lengths, or one operand of length one. *)
Definition broadcast2 {A : Type} (f : A -> A -> A) (a b : list A) : result (list A) :=
  if Nat.eqb (length a) (length b) then Ok (map2 f a b)
  else match a, b with
       | [x], _ => Ok (map (f x) b)
       | _, [y] => Ok (map (fun x => f x y) a)
       | _, _ => Raise ValueError
       end.

(** [a[k:] = rhs]: [rhs] must have the slice's shape or broadcast to it. *)
Definition setslice_from {A : Type} (a : list A) (k : Z) (rhs : list A) : result (list A) :=
  let i := slice_bound (length a) k in
  let n := (length a - i)%nat in
  if Nat.eqb (length rhs) n then Ok (firstn i a ++ rhs)
  else match rhs with
       | [y] => Ok (firstn i a ++ repeat y n)
       | _ => Raise ValueError
       end.

(** [np.cumsum]: the running sum, accumulated from left to right. *)
Fixpoint cumsum_from (acc : f64) (x : list f64) : list f64 :=
  match x with
  | [] => []
  | v :: x' => let s := F64.add acc v in s :: cumsum_from s x'
  end.

Definition cumsum (x : list f64) : list f64 :=
  match x with
  | [] => []
  | v :: x' => v :: cumsum_from v x'
  end.

(** ** [metric_dtype] *)

Record Row : Type := mkRow {
  time : f64;
  invite_latency : f64;
  answer_latency : f64;
  call_setup_latency : f64;
  originate_latency : f64;
  originate_to_invite_latency : f64;
  num_failed_calls : Z;   (* np.uint32: a value in [0, 2^32) *)
  num_sessions : Z        (* np.uint32 *)
}.

(** An item of [np.zeros(size, dtype=metric_dtype)]. *)
Definition zero_row : Row :=
  mkRow F64.zero F64.zero F64.zero F64.zero F64.zero F64.zero 0 0.

Definition uint32 (z : Z) : Z := z mod 2 ^ 32.

(** ** numpy: [ndarray.sort(order='time')]

    numpy sorts a structured array by comparing items field by field: the
    fields named in [order] first, then the others in the order of the dtype
    to break ties.  [time] is the first field of [metric_dtype], so items are
    compared in dtype order.  A float field is compared with NaN last. *)

(** numpy's [LT(a, b)] for floats: [a < b || (b != b && a == a)]. *)
Definition DOUBLE_LT (a b : f64) : bool :=
  F64.ltb a b || (F64.is_nan b && negb (F64.is_nan a)).

Definition DOUBLE_compare (a b : f64) : comparison :=
  if DOUBLE_LT a b then Lt else if DOUBLE_LT b a then Gt else Eq.

Definition UINT_compare (a b : Z) : comparison := Z.compare a b.

(** The first field that differs decides. *)
Definition lexi (c : comparison) (k : comparison) : comparison :=
  match c with Eq => k | _ => c end.

Definition VOID_compare (a b : Row) : comparison :=
  lexi (DOUBLE_compare (time a) (time b))
  (lexi (DOUBLE_compare (invite_latency a) (invite_latency b))
  (lexi (DOUBLE_compare (answer_latency a) (answer_latency b))
  (lexi (DOUBLE_compare (call_setup_latency a) (call_setup_latency b))
  (lexi (DOUBLE_compare (originate_latency a) (originate_latency b))
  (lexi (DOUBLE_compare (originate_to_invite_latency a) (originate_to_invite_latency b))
  (lexi (UINT_compare (num_failed_calls a) (num_failed_calls b))
        (UINT_compare (num_sessions a) (num_sessions b)))))))).

Definition row_lt (a b : Row) : bool :=
  match VOID_compare a b with Lt => true | _ => false end.

(** No item is smaller than the one before it. *)
Fixpoint ascending (l : list Row) : Prop :=
  match l with
  | x :: ((y :: _) as l') => row_lt y x = false /\ ascending l'
  | _ => True
  end.

(** numpy's default sort is an introsort, which is not stable: items that
    compare equal (two rows that differ only in the sign of a zero, say) come
    out in an order that depends on the algorithm.  The sort is therefore a
    parameter, [sort], of the functions that call it, and the one thing
    assumed of it is what every correct sort provides: its result holds the
    same items and is ascending for [VOID_compare]. *)
Definition sort_contract (sort : list Row -> list Row) : Prop :=
  forall l, Permutation (sort l) l /\ ascending (sort l).

(** One sort that meets the contract, by insertion. *)
Fixpoint sort_insert (x : Row) (l : list Row) : list Row :=
  match l with
  | [] => [x]
  | y :: l' => if row_lt y x then y :: sort_insert x l' else x :: l
  end.

Fixpoint insertion_sort (l : list Row) : list Row :=
  match l with
  | [] => []
  | x :: l' => sort_insert x (insertion_sort l')
  end.

(** ** Memory and array views *)

(** An [ndarray] in this module is the base array allocated by [new_array]
    or a slice [a[:k]] of such an array: a window on the first [rows] items
    of the shared memory. *)
Record ndarray : Set := window { rows : nat }.

Record CappedArray : Set := mkCappedArray {
  _buf : ndarray;
  _mi : nat       (* current row insertion-index *)
}.

(** The part of the program state the methods read and write: the memory of
    the base array, and the class attribute [__getitem__], which [__init__]
    rebinds to the [_buf] of the instance being constructed. *)
Record World : Type := mkWorld {
  mem : list Row;
  cls_getitem : ndarray
}.

(** The items an array sees. *)
Definition items (w : World) (a : ndarray) : list Row := firstn (rows a) (mem w).

(** [a.size] *)
Definition size (w : World) (a : ndarray) : nat := length (items w a).

(** [a[:k]] for [k >= 0]: a view on the same memory. *)
Definition view_upto (w : World) (a : ndarray) (k : nat) : ndarray :=
  window (Nat.min (size w a) k).

(** [a.sort(order='time')]: in place, through the view. *)
Definition sort_in_place (sort : list Row -> list Row) (w : World) (a : ndarray)
  : World :=
  mkWorld (sort (items w a) ++ skipn (rows a) (mem w)) (cls_getitem w).

(** ** [moving_avg] *)

Definition moving_avg (x : list f64) (n : Z) : result (list f64) :=
  let n := Z.min (Z.of_nat (length x)) n in
  let cs := cumsum x in
  rhs <- broadcast2 F64.sub (slice_from cs n) (slice_upto cs (- n)) ;;
  cs' <- setslice_from cs n rhs ;;
  Ok (map (fun c => F64.div c (F64.of_Z n)) cs').

(** ** [CappedArray] *)

(** [CappedArray.__init__] *)
Definition __init__ (buf : ndarray) (mi : nat) (w : World) : CappedArray * World :=
  (mkCappedArray buf mi, mkWorld (mem w) buf).

(** [self._view = self._buf[:self._mi]] *)
Definition _view (self : CappedArray) (w : World) : ndarray :=
  view_upto w (_buf self) (_mi self).

(** [self.view] *)
Definition view (self : CappedArray) (w : World) : CappedArray * World :=
  __init__ (_view self w) (_mi self) w.

(** [self.<name>] for a field name, through [__getattr__]: the column of
    the current view. *)
Definition column {A : Type} (field : Row -> A) (self : CappedArray) (w : World) : list A :=
  map field (items w (_view self w)).

(** [obj[name]] for a field name: the class attribute [__getitem__]. *)
Definition getitem_column {A : Type} (field : Row -> A) (w : World) : list A :=
  map field (items w (cls_getitem w)).

(** [CappedArray.insert]: [_mi % _buf.size] raises on an empty buffer. *)
Definition insert (self : CappedArray) (value : Row) (w : World)
  : result (bool * CappedArray * World) :=
  let sz := size w (_buf self) in
  if Nat.eqb sz 0 then Raise ZeroDivisionError
  else
    let i := (_mi self mod sz)%nat in
    let w' := mkWorld (setitem (mem w) i value) (cls_getitem w) in
    let self' := mkCappedArray (_buf self) (_mi self + 1) in
    if (Z.of_nat (_mi self') >? Z.of_nat sz - 1) && Nat.eqb i 0
    then Ok (true, self', w')
    else Ok (false, self', w').

(** ** [CallMetrics] *)

(** [CallMetrics.seizure_fail_rate]: [array[end] - array[start]] is a
    difference of two [np.uint32] scalars, which wraps; both operands of
    the division are Python floats. *)
Definition seizure_fail_rate (self : CappedArray) (w : World) (start end_ : Z)
  : result f64 :=
  let array := column num_failed_calls self w in
  let end_ := if end_ <? 0 then Z.of_nat (length array) + end_ else end_ in
  a_end <- getitem array end_ ;;
  a_start <- getitem array start ;;
  let num := F64.of_Z (uint32 (a_end - a_start)) in
  let denom := F64.of_Z (end_ - start) in
  float_truediv num denom.

(** [CallMetrics.answer_seizure_ratio]: [1. - self.seizure_fail_rate(start, end)] *)
Definition answer_seizure_ratio (self : CappedArray) (w : World) (start end_ : Z)
  : result f64 :=
  sfr <- seizure_fail_rate self w start end_ ;;
  Ok (F64.sub F64.one sfr).

(** [rates[rates > 300] = 300] *)
Definition bound_rate (r : f64) : f64 :=
  if F64.ltb (F64.of_Z 300) r then F64.of_Z 300 else r.

(** [CallMetrics.inst_rate].  [view.sort] is not an attribute of the
    wrapper: [__getattr__] hands out the [sort] method of [view._view], a
    slice of the buffer, which sorts that memory in place.  numpy divides by
    zero without raising. *)
Definition inst_rate (sort : list Row -> list Row) (self : CappedArray) (w : World)
  : result (list f64 * World) :=
  let '(view_, w) := view self w in                     (* view = self.view *)
  let w := sort_in_place sort w (_view view_ w) in      (* view.sort(order='time') *)
  let t1 := slice_from (getitem_column time w) 1 in     (* view['time'][1:] *)
  let '(_, w) := view self w in                         (* self.view *)
  let t0 := slice_upto (getitem_column time w) (-1) in  (* ...['time'][:-1] *)
  d <- broadcast2 F64.sub t1 t0 ;;
  let rates := map (F64.div F64.one) d in               (* 1. / (...) *)
  Ok (map bound_rate rates, w).

(** [CallMetrics.wm_rate]: [moving_avg(self.inst_rate, n=100)] *)
Definition wm_rate (sort : list Row -> list Row) (self : CappedArray) (w : World)
  : result (list f64 * World) :=
  '(rates, w) <- inst_rate sort self w ;;
  avg <- moving_avg rates 100 ;;
  Ok (avg, w).

(** [new_array(size=size)] *)
Definition new_array (size : nat) : CappedArray * World :=
  __init__ (window size) 0 (mkWorld (repeat zero_row size) (window size)).

(** A run of [insert] calls, collecting what each returns. *)
Fixpoint insert_all (self : CappedArray) (values : list Row) (w : World)
  : result (list bool * CappedArray * World) :=
  match values with
  | [] => Ok ([], self, w)
  | v :: values' =>
      '(b, self, w) <- insert self v w ;;
      '(bs, self, w) <- insert_all self values' w ;;
      Ok (b :: bs, self, w)
  end.

(** A fresh buffer of capacity [capacity] after inserting [values] in order. *)
Definition fill (capacity : nat) (values : list Row)
  : result (list bool * CappedArray * World) :=
  let '(self, w) := new_array capacity in insert_all self values w.

(** What [insert] returns at insertion index [mi] on a buffer of [sz] rows. *)
Definition rollover (mi sz : nat) : bool :=
  (Z.of_nat (mi + 1) >? Z.of_nat sz - 1) && Nat.eqb (mi mod sz) 0.

(** ** Vocabulary of the properties *)

(** A record with the given time and count of failed calls, zero elsewhere. *)
Definition row_with (t : f64) (nfc : Z) : Row :=
  mkRow t F64.zero F64.zero F64.zero F64.zero F64.zero nfc 0.

(** Six records with failed-call counts 0, 1, 1, 2, 3, 5. *)
Definition six_rows : list Row :=
  map (row_with F64.zero) [0; 1; 1; 2; 3; 5].

(** A number that is neither zero nor NaN, of sign [sx]. *)
Definition nonzero_signed (sx : bool) (x : f64) : Prop :=
  match x with
  | S754_finite s _ _ | S754_infinity s => s = sx
  | _ => False
  end.

(** numpy accepts an index [i] on [n] items when [-n <= i < n]. *)
Definition in_range (n : nat) (i : Z) : bool :=
  (- Z.of_nat n <=? i) && (i <? Z.of_nat n).

(** [end] after [if end < 0: end = array.size + end]. *)
Definition normalized_end (n : nat) (end_ : Z) : Z :=
  if end_ <? 0 then Z.of_nat n + end_ else end_.

(** The item an in-range index selects. *)
Definition item (a : list Z) (i : Z) : Z :=
  nth (Z.to_nat (if i <? 0 then Z.of_nat (length a) + i else i)) a 0.

(** What [seizure_fail_rate] does on every input: an index out of range
    raises [IndexError] first; then equal indices raise [ZeroDivisionError];
    otherwise the quotient is returned. *)
Definition seizure_fail_rate_cases (array : list Z) (start end_ : Z) : result f64 :=
  let end' := normalized_end (length array) end_ in
  if in_range (length array) end' && in_range (length array) start then
    if start =? end' then Raise ZeroDivisionError
    else Ok (F64.div (F64.of_Z (uint32 (item array end' - item array start)))
                     (F64.of_Z (end' - start)))
  else Raise IndexError.

(** [asr + sfr == 1.0] for [sfr = k / d], all in binary64. *)
Definition complement_sum_is_one (k d : Z) : bool :=
  let sfr := F64.div (F64.of_Z k) (F64.of_Z d) in
  F64.eqb (F64.add (F64.sub F64.one sfr) sfr) F64.one.

(** [m / 2^n] rounded to the nearest integer, ties to even. *)
Definition round_half_even (m n : Z) : Z :=
  let q := m / 2 ^ n in
  match 2 * (m mod 2 ^ n) ?= 2 ^ n with
  | Lt => q
  | Eq => if Z.even q then q else q + 1
  | Gt => q + 1
  end.

(** Five records with failed-call counts 0, 0, 0, 0, 2. *)
Definition five_rows : list Row :=
  map (row_with F64.zero) [0; 0; 0; 0; 2].

(** The windowed average in the words of the specification, with window
    length [n]: item [i] is [(cs[i] - cs[i-n]) / n] for [i >= n] and
    [cs[i] / n] for [i < n], where [cs] is the running sum. *)
Definition windowed_average (x : list f64) (n : Z) : list f64 :=
  let cs := cumsum x in
  map (fun i : nat =>
         let c := nth i cs F64.zero in
         F64.div (if n <=? Z.of_nat i
                  then F64.sub c (nth (i - Z.to_nat n) cs F64.zero)
                  else c)
                 (F64.of_Z n))
      (seq 0 (length x)).

(** The differences [t[1:] - t[:-1]] of a series. *)
Definition deltas (t : list f64) : list f64 := map2 F64.sub (tl t) t.

(** The capped rate of a time difference. *)
Definition rate_of (d : f64) : f64 := bound_rate (F64.div F64.one d).

(** The literal [0.5]. *)
Definition half : f64 := F64.div (F64.of_Z 1) (F64.of_Z 2).

(** A rank that orders the numbers as [DOUBLE_LT] does: NaN last, the two
    zeros together. *)
Definition key (x : f64) : Z * Z * Z :=
  match x with
  | S754_infinity true => (-2, 0, 0)
  | S754_finite true m e => (-1, - e, - Zpos m)
  | S754_zero _ => (0, 0, 0)
  | S754_finite false m e => (1, e, Zpos m)
  | S754_infinity false => (2, 0, 0)
  | S754_nan => (3, 0, 0)
  end.

(** The lexicographic order on ranks. *)
Definition lex_lt (a b : Z * Z * Z) : Prop :=
  let '(a1, a2, a3) := a in
  let '(b1, b2, b3) := b in
  a1 < b1 \/ (a1 = b1 /\ (a2 < b2 \/ (a2 = b2 /\ a3 < b3))).

(** A series of times in which no item sorts before its predecessor. *)
Fixpoint no_descent (t : list f64) : Prop :=
  match t with
  | a :: ((b :: _) as t') => DOUBLE_LT b a = false /\ no_descent t'
  | _ => True
  end.

(** ** The rest of the module *)

(** [CappedArray.index]: the current entry index count. *)
Definition index (self : CappedArray) : nat := _mi self.

(** [load(path)]: [np.load] reads the array stored at [path]; the wrapper is
    built on it with the insertion index at the array's size.  The rows read
    from the file are the parameter [array]. *)
Definition load (array : list Row) : CappedArray * World :=
  __init__ (window (length array)) (length array)
           (mkWorld array (window (length array))).

(** Rows whose times strictly increase from each one to the next. *)
Fixpoint increasing_times (l : list Row) : Prop :=
  match l with
  | x :: ((y :: _) as l') => DOUBLE_LT (time x) (time y) = true /\ increasing_times l'
  | _ => True
  end.

(** A number that is [+0], positive or [+inf]. *)
Definition not_negative (x : f64) : Prop :=
  match x with
  | S754_zero false | S754_finite false _ _ | S754_infinity false => True
  | _ => False
  end.

(** * Properties *)

(** ** Lists and windows *)

Lemma size_window (w : World) (a : ndarray) :
  size w a = Nat.min (rows a) (length (mem w)).
Proof. unfold size, items. apply length_firstn. Qed.

Lemma setitem_length {A : Type} (a : list A) (i : nat) (v : A) :
  length (setitem a i v) = length a.
Proof.
  revert i; induction a as [|x a IH]; intros [|i]; simpl; auto.
Qed.

Lemma setitem_same {A : Type} (a : list A) (i : nat) (v : A) :
  (i < length a)%nat -> nth_error (setitem a i v) i = Some v.
Proof.
  revert i; induction a as [|x a IH]; intros [|i] H; simpl in *; try lia; auto.
  apply IH; lia.
Qed.

Lemma setitem_other {A : Type} (a : list A) (i j : nat) (v : A) :
  j <> i -> nth_error (setitem a i v) j = nth_error a j.
Proof.
  revert i j; induction a as [|x a IH]; intros [|i] [|j] H; simpl; auto; try congruence.
Qed.

(** ** [insert] *)

Lemma insert_ok (self : CappedArray) (value : Row) (w : World) :
  size w (_buf self) <> 0%nat ->
  insert self value w =
    Ok (rollover (_mi self) (size w (_buf self)),
        mkCappedArray (_buf self) (_mi self + 1),
        mkWorld (setitem (mem w) (_mi self mod size w (_buf self)) value)
                (cls_getitem w)).
Proof.
  intros Hsz. unfold insert, rollover.
  destruct (Nat.eqb_spec (size w (_buf self)) 0) as [E|_]; [contradiction|].
  cbn [_mi].
  destruct ((Z.of_nat (_mi self + 1) >? Z.of_nat (size w (_buf self)) - 1)
            && Nat.eqb (_mi self mod size w (_buf self)) 0); reflexivity.
Qed.

Lemma insert_zero_capacity (self : CappedArray) (value : Row) (w : World) :
  size w (_buf self) = 0%nat -> insert self value w = Raise ZeroDivisionError.
Proof. intros E. unfold insert. rewrite E. reflexivity. Qed.

Lemma insert_all_ok (values : list Row) :
  forall (self : CappedArray) (w : World),
    size w (_buf self) <> 0%nat ->
    exists w',
      insert_all self values w
        = Ok (map (fun k => rollover k (size w (_buf self)))
                  (seq (_mi self) (length values)),
              mkCappedArray (_buf self) (_mi self + length values), w')
      /\ length (mem w') = length (mem w)
      /\ cls_getitem w' = cls_getitem w.
Proof.
  induction values as [|v values IH]; intros self w Hsz; simpl.
  - exists w. rewrite Nat.add_0_r. destruct self; auto.
  - rewrite (insert_ok _ _ _ Hsz). cbn [bind].
    set (self1 := mkCappedArray _ _). set (w1 := mkWorld _ _).
    assert (Hlen : length (mem w1) = length (mem w))
      by apply setitem_length.
    assert (Hsz1 : size w1 (_buf self1) = size w (_buf self)).
    { rewrite !size_window. cbn [_buf self1]. rewrite Hlen. reflexivity. }
    destruct (IH self1 w1) as (w' & E & Hmem & Hcls).
    { rewrite Hsz1. exact Hsz. }
    rewrite E. cbn [bind]. rewrite Hsz1.
    exists w'. cbn [_buf _mi self1] in *. repeat split.
    + replace (_mi self + S (length values))%nat
        with (_mi self + 1 + length values)%nat by lia.
      replace (_mi self + 1)%nat with (S (_mi self)) by lia.
      reflexivity.
    + congruence.
    + rewrite Hcls. reflexivity.
Qed.

Lemma fill_ok (capacity : nat) (values : list Row) :
  (0 < capacity)%nat ->
  exists w,
    fill capacity values
      = Ok (map (fun k => rollover k capacity) (seq 0 (length values)),
            mkCappedArray (window capacity) (length values), w)
    /\ length (mem w) = capacity.
Proof.
  intros Hcap. unfold fill, new_array, __init__.
  set (w0 := mkWorld _ _). set (self0 := mkCappedArray _ _).
  assert (Hmem0 : length (mem w0) = capacity) by apply repeat_length.
  assert (Hsz : size w0 (_buf self0) = capacity).
  { rewrite size_window. cbn [_buf self0 rows]. lia. }
  destruct (insert_all_ok values self0 w0) as (w & E & Hmem & _).
  { rewrite Hsz. lia. }
  exists w. rewrite E, Hsz. cbn [_buf _mi self0]. split; auto; congruence.
Qed.

(** C4: after [k] inserts into a fresh buffer of capacity [capacity > 0],
    the array returned by [view] has [min k capacity] rows (both its own
    buffer and the view it reads its columns from). *)
Theorem view_length_min (capacity : nat) (values : list Row) :
  (0 < capacity)%nat ->
  exists bs self w,
    fill capacity values = Ok (bs, self, w)
    /\ _mi self = length values
    /\ let '(v, w') := view self w in
       size w' (_buf v) = Nat.min (length values) capacity
       /\ size w' (_view v w') = Nat.min (length values) capacity
       /\ length (column time v w') = Nat.min (length values) capacity.
Proof.
  intros Hcap.
  destruct (fill_ok capacity values Hcap) as (w & E & Hmem).
  eexists _, (mkCappedArray (window capacity) (length values)), w.
  split; [exact E|]. split; [reflexivity|].
  unfold view, __init__, column, _view, view_upto.
  cbn [_buf _mi rows].
  repeat rewrite ?size_window, ?length_map; cbn [mem rows];
    repeat rewrite ?size_window; cbn [mem rows].
  unfold items; cbn [rows mem]. rewrite ?length_firstn.
  repeat split; lia.
Qed.

Lemma view_length_min_witness :
  exists bs self w,
    fill 4 (repeat zero_row 6) = Ok (bs, self, w)
    /\ _mi self = 6%nat
    /\ let '(v, w') := view self w in
       size w' (_buf v) = 4%nat
       /\ size w' (_view v w') = 4%nat
       /\ length (column time v w') = 4%nat.
Proof.
  apply (view_length_min 4 (repeat zero_row 6)). lia.
Defined.

Lemma insert_all_app (l1 l2 : list Row) :
  forall (self : CappedArray) (w : World),
    insert_all self (l1 ++ l2) w
    = ('(bs1, self1, w1) <- insert_all self l1 w ;;
       '(bs2, self2, w2) <- insert_all self1 l2 w1 ;;
       Ok (bs1 ++ bs2, self2, w2)).
Proof.
  induction l1 as [|v l1 IH]; intros self w; cbn [app insert_all bind].
  - destruct (insert_all self l2 w) as [[[bs s] w']|e]; reflexivity.
  - destruct (insert self v w) as [[[b s] w']|e]; cbn [bind]; [|reflexivity].
    rewrite IH.
    destruct (insert_all s l1 w') as [[[bs1 s1] w1]|e]; cbn [bind]; [|reflexivity].
    destruct (insert_all s1 l2 w1) as [[[bs2 s2] w2]|e]; reflexivity.
Qed.

Lemma mod_differ (c i k : nat) :
  (i < k)%nat -> (k < i + c)%nat -> (i mod c <> k mod c)%nat.
Proof.
  intros Hik Hkc E.
  assert (Hc : c <> 0%nat) by lia.
  pose proof (Nat.div_mod_eq i c) as Hi.
  pose proof (Nat.div_mod_eq k c) as Hk.
  rewrite E in Hi.
  assert (Hd : (k - i = c * (k / c - i / c))%nat) by nia.
  destruct (k / c - i / c)%nat as [|q]; nia.
Qed.

(** After any run of inserts into a fresh buffer, each of the last
    [capacity] records sits in the slot of its insertion index modulo the
    capacity: an insert past the capacity overwrites the oldest record
    still held. *)
Lemma fill_keeps_last_rows (capacity : nat) (values : list Row) :
  (0 < capacity)%nat ->
  exists bs self w,
    fill capacity values = Ok (bs, self, w)
    /\ forall i, (i < length values)%nat -> (length values <= i + capacity)%nat ->
         nth_error (mem w) (i mod capacity) = nth_error values i.
Proof.
  intros Hcap.
  induction values as [|v values IH] using rev_ind.
  - destruct (fill_ok capacity [] Hcap) as (w & E & _).
    eexists _, _, w. split; [exact E|]. cbn [length]. intros i Hi. lia.
  - destruct IH as (bs & self & w & E & IH).
    destruct (fill_ok capacity values Hcap) as (w0 & E0 & Hmem).
    rewrite E in E0. injection E0 as -> -> ->.
    unfold fill in *. cbn [new_array __init__] in *.
    unfold new_array, __init__ in *. rewrite insert_all_app, E.
    cbn [bind insert_all].
    assert (Hsz : size w0 (window capacity) = capacity)
      by (rewrite size_window; cbn [rows]; lia).
    rewrite insert_ok by (cbn [_buf]; lia).
    cbn [bind _buf _mi]. rewrite Hsz.
    eexists _, _, _. split; [reflexivity|].
    cbn [mem]. intros i Hi Hlast. rewrite length_app in *. cbn [length] in *.
    destruct (Nat.eq_dec i (length values)) as [->|Hne].
    + rewrite setitem_same.
      * rewrite nth_error_app2, Nat.sub_diag by lia. reflexivity.
      * rewrite Hmem. apply Nat.mod_upper_bound. lia.
    + rewrite setitem_other by (apply mod_differ; lia).
      rewrite nth_error_app1 by lia. apply IH; lia.
Qed.

(** C9, amended: on a buffer with at least one row, [insert] never raises:
    it stores the record in physical slot [_mi mod size], adds exactly one
    to [_mi], keeps the buffer it writes to, and leaves every other slot as
    it was.  On a buffer that was written by [insert] alone ([k] inserts
    into a fresh buffer) each of the last [capacity] records sits in the
    slot of its insertion index modulo the capacity, so once the capacity is
    exceeded the slot written holds the oldest record still kept, record
    [k - capacity]. *)
Theorem insert_writes_one_slot (capacity : nat) (values : list Row) (value : Row) :
  (0 < capacity)%nat ->
  (forall (self : CappedArray) (w : World),
     (0 < size w (_buf self))%nat ->
     exists b self' w',
       insert self value w = Ok (b, self', w')
       /\ let slot := (_mi self mod size w (_buf self))%nat in
          nth_error (mem w') slot = Some value
          /\ _mi self' = (_mi self + 1)%nat
          /\ _buf self' = _buf self
          /\ length (mem w') = length (mem w)
          /\ forall j, j <> slot -> nth_error (mem w') j = nth_error (mem w) j)
  /\ exists bs self w b self' w',
       fill capacity values = Ok (bs, self, w)
       /\ insert self value w = Ok (b, self', w')
       /\ fill capacity (values ++ [value]) = Ok (bs ++ [b], self', w')
       /\ let k := length values in
          let slot := (k mod capacity)%nat in
          _mi self = k
          /\ _mi self' = (k + 1)%nat
          /\ size w (_buf self) = capacity
          /\ nth_error (mem w') slot = Some value
          /\ (forall j, j <> slot -> nth_error (mem w') j = nth_error (mem w) j)
          /\ (forall i, (i < k)%nat -> (k <= i + capacity)%nat ->
                nth_error (mem w) (i mod capacity) = nth_error values i)
          /\ ((capacity <= k)%nat ->
              nth_error (mem w) slot = nth_error values (k - capacity)).
Proof.
  intros Hcap. split.
  - intros self w Hsz.
    rewrite insert_ok by lia.
    eexists _, _, _. split; [reflexivity|].
    cbn [mem _mi _buf]. repeat split.
    + apply setitem_same.
      pose proof (Nat.mod_upper_bound (_mi self) (size w (_buf self))) as Hlt.
      rewrite size_window in *. lia.
    + apply setitem_length.
    + intros j Hj. apply setitem_other. exact Hj.
  - destruct (fill_keeps_last_rows capacity values Hcap)
      as (bs & self & w & E & Hlast).
    destruct (fill_ok capacity values Hcap) as (w0 & E0 & Hmem).
    rewrite E in E0. injection E0 as -> -> ->.
    assert (Hsz : size w0 (window capacity) = capacity)
      by (rewrite size_window; cbn [rows]; lia).
    eexists _, _, w0, _, _, _. split; [exact E|].
    split; [apply insert_ok; cbn [_buf]; lia|].
    cbn [_buf _mi mem]. rewrite Hsz. split.
    + unfold fill in *. unfold new_array, __init__ in *.
      rewrite insert_all_app, E. cbn [bind insert_all].
      rewrite insert_ok by (cbn [_buf]; lia).
      cbn [bind _buf _mi]. rewrite Hsz. reflexivity.
    + cbv zeta.
      assert (Hslot : (length values mod capacity < length (mem w0))%nat)
        by (rewrite Hmem; apply Nat.mod_upper_bound; lia).
      split; [reflexivity|]. split; [reflexivity|]. split; [reflexivity|].
      split; [apply setitem_same, Hslot|].
      split; [intros j Hj; apply setitem_other, Hj|].
      split; [exact Hlast|].
      intros Hk.
      rewrite <- (Hlast (length values - capacity)%nat) by lia.
      f_equal.
      replace (length values) with (length values - capacity + 1 * capacity)%nat
        at 1 by lia.
      apply Nat.Div0.mod_add.
Qed.

Lemma insert_writes_one_slot_witness :
  exists bs self w b self' w',
    fill 2 [row_with (F64.of_Z 3) 0; row_with (F64.of_Z 1) 1;
            row_with (F64.of_Z 2) 2] = Ok (bs, self, w)
    /\ insert self (row_with (F64.of_Z 5) 3) w = Ok (b, self', w')
    /\ mem w = [row_with (F64.of_Z 2) 2; row_with (F64.of_Z 1) 1]
    /\ mem w' = [row_with (F64.of_Z 2) 2; row_with (F64.of_Z 5) 3]
    /\ _mi self = 3%nat
    /\ _mi self' = 4%nat.
Proof.
  destruct (proj2 (insert_writes_one_slot 2
                     [row_with (F64.of_Z 3) 0; row_with (F64.of_Z 1) 1;
                      row_with (F64.of_Z 2) 2]
                     (row_with (F64.of_Z 5) 3) ltac:(lia)))
    as (bs & self & w & b & self' & w' & E & Ei & _ & Hmi & Hmi' & _).
  exists bs, self, w, b, self', w'.
  split; [exact E|]. split; [exact Ei|].
  vm_compute in E. injection E as _ <- <-.
  vm_compute in Ei. injection Ei as _ <- <-.
  repeat split; vm_compute; reflexivity.
Defined.

(** ** The value returned by [insert] *)

Lemma rollover_from_two (mi sz : nat) :
  (2 <= sz)%nat ->
  rollover mi sz = true <-> (mi mod sz = 0 /\ sz <= mi)%nat.
Proof.
  intros Hsz. unfold rollover.
  rewrite andb_true_iff, Nat.eqb_eq, Z.gtb_ltb, Z.ltb_lt.
  split.
  - intros [Hgt Hmod]. split; [exact Hmod|].
    destruct (Nat.lt_ge_cases mi sz) as [Hlt|Hge]; [|exact Hge].
    rewrite Nat.mod_small in Hmod by exact Hlt. lia.
  - intros [Hmod Hge]. split; [lia|exact Hmod].
Qed.

Lemma rollover_capacity_one (mi : nat) : rollover mi 1 = true.
Proof.
  unfold rollover. rewrite Nat.mod_1_r. simpl Nat.eqb.
  rewrite andb_true_r. apply Z.gtb_lt. lia.
Qed.

(** With two rows or more, the [k]-th insertion (counting from 0) into a
    fresh buffer returns [true] exactly when [k] is a positive multiple of
    the capacity: never in the first lap, once per lap afterwards. *)
Lemma insert_signals_rollover (capacity : nat) (values : list Row) (k : nat) :
  (2 <= capacity)%nat -> (k < length values)%nat ->
  exists bs self w,
    fill capacity values = Ok (bs, self, w)
    /\ exists b, nth_error bs k = Some b
       /\ (b = true <-> (k mod capacity = 0 /\ capacity <= k)%nat).
Proof.
  intros Hcap Hk.
  destruct (fill_ok capacity values) as (w & E & _); [lia|].
  eexists _, _, w. split; [exact E|].
  exists (rollover k capacity). split.
  - rewrite nth_error_map, nth_error_seq.
    destruct (Nat.ltb_spec k (length values)); [reflexivity|lia].
  - apply rollover_from_two. exact Hcap.
Qed.

(** C3: with capacity 1 the guard [_mi > size - 1] is [_mi > 0], which the
    first insertion already passes: [insert] returns [True] in the first
    lap, before anything was overwritten. *)
Theorem insert_capacity_one_first_lap (value : Row) :
  exists self w, fill 1 [value] = Ok ([true], self, w).
Proof.
  eexists _, _. vm_compute. reflexivity.
Qed.

(** ** The scenario of capacity 4 and six inserts *)

(** C2, as stated, fails: after the six inserts the column of failed calls
    is not [1; 2; 3; 5] and [seizure_fail_rate(0, 3)] is not [(5 - 1) / 3]. *)
Lemma six_inserts_not_in_insertion_order :
  exists bs self w,
    fill 4 six_rows = Ok (bs, self, w)
    /\ column num_failed_calls (fst (view self w)) (snd (view self w))
         <> [1; 2; 3; 5]
    /\ seizure_fail_rate self w 0 3
         <> Ok (F64.div (F64.of_Z (5 - 1)) (F64.of_Z 3)).
Proof.
  eexists _, _, _. split; [vm_compute; reflexivity|].
  split; vm_compute; discriminate.
Qed.

(** C2, amended: the view has 4 rows, which are the last four inserted rows
    in the order of their physical slots (the fifth and sixth records
    overwrote slots 0 and 1), so the column of failed calls is [3; 5; 1; 2];
    [seizure_fail_rate(0, 3)] is computed on that column, where the [uint32]
    difference [2 - 3] wraps to [4294967295]. *)
Theorem six_inserts_physical_order (values : list Row) :
  map num_failed_calls values = [0; 1; 1; 2; 3; 5] ->
  exists bs self w,
    fill 4 values = Ok (bs, self, w)
    /\ let '(v, w') := view self w in
       size w' (_view v w') = 4%nat
       /\ items w' (_view v w')
            = [nth 4 values zero_row; nth 5 values zero_row;
               nth 2 values zero_row; nth 3 values zero_row]
       /\ column num_failed_calls v w' = [3; 5; 1; 2]
       /\ seizure_fail_rate v w' 0 3
            = Ok (F64.div (F64.of_Z 4294967295) (F64.of_Z 3))
       /\ seizure_fail_rate self w 0 3 = Ok (F64.of_Z 1431655765).
Proof.
  intros H.
  destruct values as [|r0 [|r1 [|r2 [|r3 [|r4 [|r5 [|? ?]]]]]]]; try discriminate H.
  injection H as H0 H1 H2 H3 H4 H5.
  eexists _, _, _. split; [vm_compute; reflexivity|].
  cbv [view __init__ _view view_upto size items column seizure_fail_rate
       _buf _mi rows mem firstn Nat.min length map].
  repeat split.
  - rewrite H4, H5, H2, H3. reflexivity.
  - rewrite H3, H4. vm_compute. reflexivity.
  - rewrite H3, H4. vm_compute. reflexivity.
Qed.

Lemma six_inserts_physical_order_witness :
  exists bs self w,
    fill 4 six_rows = Ok (bs, self, w)
    /\ let '(v, w') := view self w in
       size w' (_view v w') = 4%nat
       /\ items w' (_view v w')
            = [nth 4 six_rows zero_row; nth 5 six_rows zero_row;
               nth 2 six_rows zero_row; nth 3 six_rows zero_row]
       /\ column num_failed_calls v w' = [3; 5; 1; 2]
       /\ seizure_fail_rate v w' 0 3
            = Ok (F64.div (F64.of_Z 4294967295) (F64.of_Z 3))
       /\ seizure_fail_rate self w 0 3 = Ok (F64.of_Z 1431655765).
Proof.
  apply (six_inserts_physical_order six_rows). reflexivity.
Defined.

(** ** Rounding to binary64 *)

Lemma digits2_bounds (p : positive) :
  2 ^ (Zpos (digits2_pos p) - 1) <= Zpos p < 2 ^ Zpos (digits2_pos p).
Proof.
  induction p as [p IH|p IH|]; simpl digits2_pos.
  - rewrite Pos2Z.inj_succ, (Pos2Z.inj_xI p).
    replace (Z.succ (Zpos (digits2_pos p)) - 1)
      with (Z.succ (Zpos (digits2_pos p) - 1)) by lia.
    rewrite !Z.pow_succ_r by lia. lia.
  - rewrite Pos2Z.inj_succ, (Pos2Z.inj_xO p).
    replace (Z.succ (Zpos (digits2_pos p)) - 1)
      with (Z.succ (Zpos (digits2_pos p) - 1)) by lia.
    rewrite !Z.pow_succ_r by lia. lia.
  - simpl. lia.
Qed.

Lemma Zdigits2_bounds (m : Z) :
  0 < m -> 2 ^ (Zdigits2 m - 1) <= m < 2 ^ Zdigits2 m.
Proof.
  destruct m as [|p|p]; try lia. intros _. apply digits2_bounds.
Qed.

Lemma Zdigits2_pos (m : Z) : 0 < m -> 0 < Zdigits2 m.
Proof. destruct m; simpl; lia. Qed.

Lemma Zdigits2_mono (a b : Z) : 0 < a -> a <= b -> Zdigits2 a <= Zdigits2 b.
Proof.
  intros Ha Hab.
  destruct (Z.le_gt_cases (Zdigits2 a) (Zdigits2 b)) as [H|H]; [exact H|].
  pose proof (Zdigits2_bounds a Ha) as [Hlo _].
  pose proof (Zdigits2_bounds b ltac:(lia)) as [_ Hhi].
  assert (2 ^ Zdigits2 b <= 2 ^ (Zdigits2 a - 1))
    by (apply Z.pow_le_mono_r; lia).
  lia.
Qed.

Lemma digits2_shift (d m : positive) :
  Zpos (digits2_pos (Pos.iter xO m d)) = Zpos (digits2_pos m) + Zpos d.
Proof.
  induction d as [|d IH] using Pos.peano_ind.
  - simpl. lia.
  - rewrite Pos.iter_succ. simpl digits2_pos. lia.
Qed.

Lemma iter_pos_iter {A : Type} (f : A -> A) (p : positive) :
  forall x, iter_pos f p x = Pos.iter f x p.
Proof.
  induction p as [p IH|p IH|]; intros x; simpl.
  - rewrite !IH, !Pos.iter_swap. reflexivity.
  - rewrite !IH. reflexivity.
  - reflexivity.
Qed.

Lemma shr_1_m (mrs : shr_record) :
  0 <= shr_m mrs -> shr_m (shr_1 mrs) = shr_m mrs / 2.
Proof.
  destruct mrs as [[|[p|p|]|p] r s]; cbn [shr_1 shr_m]; intros H.
  - reflexivity.
  - rewrite (Pos2Z.inj_xI p). apply Z.div_unique with 1; lia.
  - rewrite (Pos2Z.inj_xO p). apply Z.div_unique with 0; lia.
  - reflexivity.
  - lia.
Qed.

Lemma shr_iter_m (p : positive) (mrs : shr_record) :
  0 <= shr_m mrs ->
  shr_m (iter_pos shr_1 p mrs) = shr_m mrs / 2 ^ Zpos p.
Proof.
  intros H. rewrite iter_pos_iter.
  induction p as [|p IH] using Pos.peano_ind.
  - simpl Pos.iter. rewrite Z.pow_1_r. apply shr_1_m, H.
  - rewrite Pos.iter_succ, shr_1_m, IH.
    + rewrite Pos2Z.inj_succ, Z.pow_succ_r by lia.
      rewrite Z.div_div by lia. f_equal. lia.
    + rewrite IH. apply Z.div_pos; lia.
Qed.

Lemma shr_record_of_loc_m (m : Z) (l : location) :
  shr_m (shr_record_of_loc m l) = m.
Proof. destruct l as [|[]]; reflexivity. Qed.

Lemma shr_fexp_m (m e : Z) (l : location) :
  0 <= m ->
  let n := Z.max 0 (fexp F64.prec F64.emax (Zdigits2 m + e) - e) in
  shr_m (fst (shr_fexp F64.prec F64.emax m e l)) = m / 2 ^ n
  /\ snd (shr_fexp F64.prec F64.emax m e l) = e + n.
Proof.
  intros Hm. unfold shr_fexp, shr.
  destruct (fexp F64.prec F64.emax (Zdigits2 m + e) - e) as [|p|p] eqn:E;
    cbn [fst snd].
  - rewrite shr_record_of_loc_m, Z.div_1_r. simpl. lia.
  - rewrite shr_iter_m by (rewrite shr_record_of_loc_m; exact Hm).
    rewrite shr_record_of_loc_m.
    replace (Z.max 0 (Zpos p)) with (Zpos p) by lia. split; reflexivity.
  - rewrite shr_record_of_loc_m.
    replace (Z.max 0 (Zneg p)) with 0 by lia.
    rewrite Z.div_1_r. split; lia.
Qed.

Lemma round_nearest_even_bounds (m : Z) (l : location) :
  m <= round_nearest_even m l <= m + 1.
Proof.
  destruct l as [|[]]; simpl; try lia.
  destruct (Z.even m); lia.
Qed.

(** Rounding a non-negative mantissa gives a zero, a finite number or an
    infinity of the requested sign, and never a zero when the value is at
    least the smallest subnormal's magnitude class. *)
Lemma binary_round_aux_shape (sx : bool) (mx ex : Z) (lx : location) :
  0 <= mx ->
  exists m3 e3,
    0 <= m3
    /\ (0 < mx -> emin F64.prec F64.emax < Zdigits2 mx + ex -> 0 < m3)
    /\ binary_round_aux F64.prec F64.emax sx mx ex lx =
         match m3 with
         | Z0 => S754_zero sx
         | Zpos m => if e3 <=? F64.emax - F64.prec
                     then S754_finite sx m e3 else S754_infinity sx
         | Zneg _ => S754_nan
         end.
Proof.
  intros Hm. unfold binary_round_aux.
  pose proof (shr_fexp_m mx ex lx Hm) as [H1 H1e].
  destruct (shr_fexp F64.prec F64.emax mx ex lx) as [mrs' e'].
  cbn [fst snd] in H1, H1e.
  pose proof (round_nearest_even_bounds (shr_m mrs') (loc_of_shr_record mrs'))
    as Hr.
  set (m2 := round_nearest_even (shr_m mrs') (loc_of_shr_record mrs')) in *.
  set (n1 := Z.max 0 (fexp F64.prec F64.emax (Zdigits2 mx + ex) - ex)) in *.
  assert (Hm1 : 0 <= shr_m mrs') by (rewrite H1; apply Z.div_pos; lia).
  assert (Hm2 : 0 <= m2) by lia.
  pose proof (shr_fexp_m m2 e' loc_Exact Hm2) as [H2 H2e].
  destruct (shr_fexp F64.prec F64.emax m2 e' loc_Exact) as [mrs'' e''].
  cbn [fst snd] in H2, H2e.
  set (n2 := Z.max 0 (fexp F64.prec F64.emax (Zdigits2 m2 + e') - e')) in *.
  exists (shr_m mrs''), e''. split; [|split; [|reflexivity]].
  - rewrite H2. apply Z.div_pos; lia.
  - intros Hpos Hbig.
    pose proof (Zdigits2_bounds mx Hpos) as [Hlo _].
    assert (Hn1 : n1 <= Zdigits2 mx - 1).
    { unfold n1, fexp, emin, F64.prec, F64.emax in *.
      pose proof (Zdigits2_pos mx Hpos). lia. }
    assert (Hm1' : 0 < shr_m mrs').
    { rewrite H1. apply Z.div_str_pos. split; [lia|].
      transitivity (2 ^ (Zdigits2 mx - 1)); [|exact Hlo].
      apply Z.pow_le_mono_r; lia. }
    assert (Hm2' : 0 < m2) by lia.
    pose proof (Zdigits2_bounds m2 Hm2') as [Hlo2 _].
    pose proof (Zdigits2_pos m2 Hm2') as Hd2.
    assert (Hn2 : n2 <= Zdigits2 m2 - 1).
    { destruct (Z.eq_dec n1 0) as [E0|E0].
      - assert (shr_m mrs' = mx) by (rewrite H1, E0; apply Z.div_1_r).
        assert (Zdigits2 mx <= Zdigits2 m2) by (apply Zdigits2_mono; lia).
        unfold n2, fexp, emin, F64.prec, F64.emax in *. lia.
      - unfold n2, n1, fexp, emin, F64.prec, F64.emax in *. lia. }
    rewrite H2. apply Z.div_str_pos. split; [lia|].
    transitivity (2 ^ (Zdigits2 m2 - 1)); [|exact Hlo2].
    apply Z.pow_le_mono_r; lia.
Qed.

Lemma binary_round_aux_not_nan (sx : bool) (mx ex : Z) (lx : location) :
  0 <= mx -> F64.is_nan (binary_round_aux F64.prec F64.emax sx mx ex lx) = false.
Proof.
  intros Hm.
  destruct (binary_round_aux_shape sx mx ex lx Hm) as (m3 & e3 & H3 & _ & E).
  rewrite E. destruct m3 as [|p|p]; [reflexivity| |lia].
  destruct (e3 <=? F64.emax - F64.prec); reflexivity.
Qed.

Lemma binary_round_aux_nonzero (sx : bool) (mx ex : Z) (lx : location) :
  0 < mx -> emin F64.prec F64.emax < Zdigits2 mx + ex ->
  nonzero_signed sx (binary_round_aux F64.prec F64.emax sx mx ex lx).
Proof.
  intros Hm Hbig.
  destruct (binary_round_aux_shape sx mx ex lx ltac:(lia))
    as (m3 & e3 & _ & H3 & E).
  specialize (H3 Hm Hbig). rewrite E. destruct m3 as [|p|p]; try lia.
  destruct (e3 <=? F64.emax - F64.prec); reflexivity.
Qed.

Lemma shl_align_digits (mx : positive) (ex ex' : Z) :
  Zpos (digits2_pos (fst (shl_align mx ex ex'))) + snd (shl_align mx ex ex')
  = Zpos (digits2_pos mx) + ex.
Proof.
  unfold shl_align. destruct (ex' - ex) as [|d|d] eqn:E; cbn [fst snd]; try lia.
  rewrite digits2_shift. lia.
Qed.

Lemma binary_round_not_nan (sx : bool) (mx : positive) (ex : Z) :
  F64.is_nan (binary_round F64.prec F64.emax sx mx ex) = false.
Proof.
  unfold binary_round.
  destruct (shl_align mx ex _) as [mz ez].
  apply binary_round_aux_not_nan. lia.
Qed.

Lemma binary_round_nonzero (sx : bool) (mx : positive) (ex : Z) :
  emin F64.prec F64.emax < Zpos (digits2_pos mx) + ex ->
  nonzero_signed sx (binary_round F64.prec F64.emax sx mx ex).
Proof.
  intros Hbig. unfold binary_round.
  pose proof (shl_align_digits mx ex
                (fexp F64.prec F64.emax (Zpos (digits2_pos mx) + ex))) as Hd.
  destruct (shl_align mx ex _) as [mz ez]. cbn [fst snd] in Hd.
  apply binary_round_aux_nonzero; [lia|]. simpl Zdigits2. lia.
Qed.

Lemma binary_normalize_not_nan (m e : Z) (szero : bool) :
  F64.is_nan (binary_normalize F64.prec F64.emax m e szero) = false.
Proof.
  destruct m; simpl; [reflexivity| |]; apply binary_round_not_nan.
Qed.

(** [float(z)] is zero only for [z = 0]. *)
Lemma of_Z_eqb_zero (z : Z) : F64.eqb (F64.of_Z z) F64.zero = (z =? 0).
Proof.
  destruct z as [|p|p]; [reflexivity| |];
    unfold F64.of_Z, binary_normalize.
  - assert (H : nonzero_signed false (binary_round F64.prec F64.emax false p 0))
      by (apply binary_round_nonzero; unfold emin, F64.prec, F64.emax; lia).
    destruct (binary_round F64.prec F64.emax false p 0) as [s|s| |s m e];
      simpl in H; try contradiction; subst; reflexivity.
  - assert (H : nonzero_signed true (binary_round F64.prec F64.emax true p 0))
      by (apply binary_round_nonzero; unfold emin, F64.prec, F64.emax; lia).
    destruct (binary_round F64.prec F64.emax true p 0) as [s|s| |s m e];
      simpl in H; try contradiction; subst; reflexivity.
Qed.

(** ** Rounding to nearest, ties to even *)

Lemma Zdigits2_unique (m n : Z) :
  0 < n -> 2 ^ (n - 1) <= m < 2 ^ n -> Zdigits2 m = n.
Proof.
  intros Hn [Hlo Hhi].
  assert (Hm : 0 < m) by (pose proof (Z.pow_pos_nonneg 2 (n - 1)); lia).
  pose proof (Zdigits2_bounds m Hm) as [Hlo' Hhi'].
  pose proof (Zdigits2_pos m Hm) as Hd.
  destruct (Z.lt_trichotomy (Zdigits2 m) n) as [Hlt|[E|Hgt]]; [|exact E|].
  - assert (2 ^ Zdigits2 m <= 2 ^ (n - 1)) by (apply Z.pow_le_mono_r; lia). lia.
  - assert (2 ^ n <= 2 ^ (Zdigits2 m - 1)) by (apply Z.pow_le_mono_r; lia). lia.
Qed.

Lemma shr_1_spec (m : Z) (r s : bool) :
  0 <= m ->
  shr_1 (Build_shr_record m r s) = Build_shr_record (m / 2) (Z.odd m) (r || s).
Proof.
  intros Hm. destruct m as [|[p|p|]|p]; cbn [shr_1 Z.odd]; try lia.
  - reflexivity.
  - f_equal. rewrite (Pos2Z.inj_xI p). apply Z.div_unique with 1; lia.
  - f_equal. rewrite (Pos2Z.inj_xO p). apply Z.div_unique with 0; lia.
  - reflexivity.
Qed.

Lemma mod_pow2_succ (m a : Z) :
  0 <= a ->
  m mod 2 ^ (a + 1) = m mod 2 ^ a + 2 ^ a * (if Z.odd (m / 2 ^ a) then 1 else 0).
Proof.
  intros Ha. rewrite Z.pow_add_r, Z.pow_1_r by lia.
  rewrite Z.rem_mul_r by lia. rewrite Zmod_odd. reflexivity.
Qed.

Lemma mod_pow2_pred (m : Z) (p : positive) :
  m mod 2 ^ Zpos p
  = m mod 2 ^ (Zpos p - 1)
    + 2 ^ (Zpos p - 1) * (if Z.odd (m / 2 ^ (Zpos p - 1)) then 1 else 0).
Proof.
  replace (Zpos p) with (Zpos p - 1 + 1) at 1 by lia.
  apply mod_pow2_succ. lia.
Qed.

Lemma shr_iter_spec (m : Z) (p : positive) :
  0 <= m ->
  iter_pos shr_1 p (Build_shr_record m false false)
  = Build_shr_record (m / 2 ^ Zpos p) (Z.odd (m / 2 ^ (Zpos p - 1)))
                     (negb (m mod 2 ^ (Zpos p - 1) =? 0)).
Proof.
  intros Hm. rewrite iter_pos_iter.
  induction p as [|p IH] using Pos.peano_ind.
  - change (Pos.iter shr_1 (Build_shr_record m false false) 1)
      with (shr_1 (Build_shr_record m false false)).
    rewrite shr_1_spec by exact Hm.
    change (1 - 1) with 0.
    rewrite Z.pow_0_r, Z.div_1_r, Z.mod_1_r, Z.pow_1_r. reflexivity.
  - rewrite Pos.iter_succ, IH, shr_1_spec by (apply Z.div_pos; lia).
    rewrite Pos2Z.inj_succ.
    replace (Z.succ (Zpos p) - 1) with (Zpos p) by lia.
    f_equal.
    + rewrite Z.pow_succ_r by lia. rewrite Z.div_div by lia.
      f_equal. lia.
    + rewrite (mod_pow2_pred m p).
      pose proof (Z.mod_pos_bound m (2 ^ (Zpos p - 1))
                    ltac:(apply Z.pow_pos_nonneg; lia)) as Hlow.
      pose proof (Z.pow_pos_nonneg 2 (Zpos p - 1) ltac:(lia) ltac:(lia)) as Hpow.
      destruct (Z.odd (m / 2 ^ (Zpos p - 1)));
        destruct (Z.eqb_spec (m mod 2 ^ (Zpos p - 1)) 0) as [E|E]; cbn [orb negb];
        symmetry.
      * apply negb_true_iff, Z.eqb_neq. lia.
      * apply negb_true_iff, Z.eqb_neq. lia.
      * apply negb_false_iff, Z.eqb_eq. lia.
      * apply negb_true_iff, Z.eqb_neq. lia.
Qed.

Lemma shr_round (m : Z) (p : positive) :
  0 <= m ->
  let r := iter_pos shr_1 p (shr_record_of_loc m loc_Exact) in
  shr_m r = m / 2 ^ Zpos p
  /\ round_nearest_even (shr_m r) (loc_of_shr_record r)
     = round_half_even m (Zpos p).
Proof.
  intros Hm. cbn [shr_record_of_loc]. rewrite shr_iter_spec by exact Hm.
  cbv zeta. cbn [shr_m]. split; [reflexivity|].
  unfold round_half_even.
  rewrite (mod_pow2_pred m p).
  assert (Hp2 : 2 ^ Zpos p = 2 * 2 ^ (Zpos p - 1)).
  { rewrite <- (Z.pow_succ_r 2 (Zpos p - 1)) by lia. f_equal. lia. }
  pose proof (Z.mod_pos_bound m (2 ^ (Zpos p - 1))
                ltac:(apply Z.pow_pos_nonneg; lia)) as Hlow.
  pose proof (Z.pow_pos_nonneg 2 (Zpos p - 1) ltac:(lia) ltac:(lia)) as Hpow.
  destruct (Z.odd (m / 2 ^ (Zpos p - 1)));
    destruct (Z.eqb_spec (m mod 2 ^ (Zpos p - 1)) 0) as [E|E];
    cbn [negb loc_of_shr_record round_nearest_even];
    match goal with
    | |- context [?a ?= ?b] => destruct (Z.compare_spec a b)
    end; try lia; reflexivity.
Qed.

Lemma binary_round_aux_canonical (sx : bool) (mz : positive) (ez : Z) :
  Zpos (digits2_pos mz) = 53 -> -1074 <= ez <= 971 ->
  binary_round_aux F64.prec F64.emax sx (Zpos mz) ez loc_Exact
  = S754_finite sx mz ez.
Proof.
  intros Hd He.
  assert (E : fexp F64.prec F64.emax (53 + ez) - ez = 0)
    by (unfold fexp, emin, F64.prec, F64.emax; lia).
  unfold binary_round_aux, shr_fexp.
  cbn [Zdigits2 shr_record_of_loc]. rewrite Hd, E.
  cbn [shr shr_m loc_of_shr_record round_nearest_even Zdigits2
       shr_record_of_loc].
  rewrite Hd, E. cbn [shr shr_m].
  destruct (Z.leb_spec ez (F64.emax - F64.prec)); [reflexivity|].
  unfold F64.emax, F64.prec in *. lia.
Qed.

Lemma fexp_eq (e : Z) : fexp F64.prec F64.emax e = Z.max (e - 53) (-1074).
Proof. reflexivity. Qed.

Lemma shr_fexp_exact (m e : Z) :
  0 <= m ->
  let n := fexp F64.prec F64.emax (Zdigits2 m + e) - e in
  let r := shr_fexp F64.prec F64.emax m e loc_Exact in
  (n <= 0 -> r = (Build_shr_record m false false, e))
  /\ (0 < n ->
      shr_m (fst r) = m / 2 ^ n
      /\ snd r = e + n
      /\ round_nearest_even (shr_m (fst r)) (loc_of_shr_record (fst r))
         = round_half_even m n).
Proof.
  intros Hm n r. unfold r, shr_fexp, shr. fold n.
  destruct n as [|p|p]; cbn [shr_record_of_loc fst snd]; split; intros Hn;
    try lia; try reflexivity.
  destruct (shr_round m p Hm) as [H1 H2]. cbn [shr_record_of_loc] in H1, H2.
  split; [exact H1|]. split; [reflexivity|exact H2].
Qed.

(** Rounding an integer [M * 2^e] that has too many digits, when the
    result is a normal number. *)
Lemma binary_round_aux_shift (sx : bool) (M e : Z) :
  0 < M ->
  let e0 := fexp F64.prec F64.emax (Zdigits2 M + e) in
  e < e0 ->
  let m2 := round_half_even M (e0 - e) in
  2 ^ 52 <= m2 <= 2 ^ 53 ->
  -1074 <= e0 <= 970 ->
  binary_round_aux F64.prec F64.emax sx M e loc_Exact
  = if m2 <? 2 ^ 53 then S754_finite sx (Z.to_pos m2) e0
    else S754_finite sx (Z.to_pos (2 ^ 52)) (e0 + 1).
Proof.
  intros HM e0 He m2 Hm2 He0. unfold binary_round_aux.
  destruct (shr_fexp_exact M e ltac:(lia)) as [_ H].
  fold e0 in H. specialize (H ltac:(lia)).
  destruct (shr_fexp F64.prec F64.emax M e loc_Exact) as [mrs' e'].
  cbn [fst snd] in H. destruct H as (_ & -> & ->). fold m2.
  replace (e + (e0 - e)) with e0 by lia.
  destruct (Z.ltb_spec m2 (2 ^ 53)) as [Hlt|Hge].
  - assert (Hd : Zdigits2 m2 = 53) by (apply Zdigits2_unique; [lia|]; simpl; lia).
    destruct (shr_fexp_exact m2 e0 ltac:(lia)) as [H _].
    rewrite Hd, fexp_eq in H. rewrite H by lia.
    cbn [shr_m]. destruct m2 as [|p|p]; try lia.
    destruct (Z.leb_spec e0 (F64.emax - F64.prec)) as [_|Hbad]; [reflexivity|].
    unfold F64.emax, F64.prec in Hbad. lia.
  - assert (E : m2 = 2 ^ 53) by lia. rewrite E.
    destruct (shr_fexp_exact (2 ^ 53) e0 ltac:(lia)) as [_ H].
    change (Zdigits2 (2 ^ 53)) with 54 in H. rewrite fexp_eq in H.
    specialize (H ltac:(lia)).
    destruct (shr_fexp F64.prec F64.emax (2 ^ 53) e0 loc_Exact) as [mrs'' e''].
    cbn [fst snd] in H. destruct H as (-> & -> & _).
    replace (Z.max (54 + e0 - 53) (-1074) - e0) with 1 by lia.
    change (2 ^ 53 / 2 ^ 1) with (2 ^ 52).
    replace (e0 + 1 <=? F64.emax - F64.prec) with true
      by (symmetry; apply Z.leb_le; unfold F64.emax, F64.prec; lia).
    reflexivity.
Qed.

Lemma shl_align_spec (mx : positive) (ex ez : Z) :
  ez <= ex ->
  Zpos (fst (shl_align mx ex ez)) = Zpos mx * 2 ^ (ex - ez)
  /\ snd (shl_align mx ex ez) = ez.
Proof.
  intros H. unfold shl_align.
  destruct (ez - ex) as [|d|d] eqn:E; cbn [fst snd]; try lia.
  - replace (ex - ez) with 0 by lia. rewrite Z.pow_0_r. lia.
  - replace (ex - ez) with (Zpos d) by lia. split; [|reflexivity].
    clear E H. induction d as [|d IH] using Pos.peano_ind.
    + simpl. lia.
    + rewrite Pos.iter_succ, (Pos2Z.inj_xO _), IH, Pos2Z.inj_succ,
        Z.pow_succ_r by lia. lia.
Qed.

Lemma shl_align_keep (mx : positive) (ex ez : Z) :
  ex <= ez -> shl_align mx ex ez = (mx, ex).
Proof.
  intros H. unfold shl_align. destruct (ez - ex) as [|d|d] eqn:E; try lia;
    reflexivity.
Qed.

(** Rounding a number that a normal float represents returns that float. *)
Lemma binary_round_exact (sx : bool) (M : positive) (e : Z) (m' : positive) (e' : Z) :
  2 ^ 52 <= Zpos m' < 2 ^ 53 ->
  -1074 <= e' <= 970 ->
  (e' <= e /\ Zpos m' = Zpos M * 2 ^ (e - e'))
  \/ (e <= e' /\ Zpos M = Zpos m' * 2 ^ (e' - e)) ->
  binary_round F64.prec F64.emax sx M e = S754_finite sx m' e'.
Proof.
  intros Hm' He' Hval.
  assert (Hd' : Zpos (digits2_pos m') = 53).
  { apply (Zdigits2_unique (Zpos m') 53); [lia|]. simpl. lia. }
  assert (Hd : Zpos (digits2_pos M) + e = 53 + e').
  { destruct Hval as [[Hle E]|[Hle E]].
    - pose proof (Z.pow_pos_nonneg 2 (e - e') ltac:(lia) ltac:(lia)) as Hp.
      assert (Ha : e - e' <= 52).
      { destruct (Z.le_gt_cases (e - e') 52) as [H|H]; [exact H|].
        assert (2 ^ 53 <= 2 ^ (e - e')) by (apply Z.pow_le_mono_r; lia).
        nia. }
      enough (H : Zdigits2 (Zpos M) = 53 - (e - e')) by (cbn [Zdigits2] in H; lia).
      apply Zdigits2_unique; [lia|].
      assert (E52 : 2 ^ 52 = 2 ^ (53 - (e - e') - 1) * 2 ^ (e - e'))
        by (rewrite <- Z.pow_add_r by lia; f_equal; lia).
      assert (E53 : 2 ^ 53 = 2 ^ (53 - (e - e')) * 2 ^ (e - e'))
        by (rewrite <- Z.pow_add_r by lia; f_equal; lia).
      split; nia.
    - enough (H : Zdigits2 (Zpos M) = 53 + (e' - e)) by (cbn [Zdigits2] in H; lia).
      apply Zdigits2_unique; [lia|]. rewrite E.
      replace (53 + (e' - e) - 1) with (52 + (e' - e)) by lia.
      rewrite !Z.pow_add_r by lia.
      pose proof (Z.pow_pos_nonneg 2 (e' - e) ltac:(lia) ltac:(lia)) as Hp.
      split; nia. }
  unfold binary_round. rewrite Hd, fexp_eq.
  replace (Z.max (53 + e' - 53) (-1074)) with e' by lia.
  destruct (Z.le_gt_cases e' e) as [Hle|Hgt].
  - assert (E : Zpos m' = Zpos M * 2 ^ (e - e')).
    { destruct Hval as [[_ E]|[Hle' E]]; [exact E|].
      replace e' with e in * by lia. rewrite Z.sub_diag, Z.pow_0_r in *. lia. }
    destruct (shl_align_spec M e e' Hle) as [H1 H2].
    destruct (shl_align M e e') as [mz ez]. cbn [fst snd] in H1, H2.
    subst ez. assert (mz = m') by lia. subst mz.
    apply binary_round_aux_canonical; [exact Hd'|lia].
  - assert (E : Zpos M = Zpos m' * 2 ^ (e' - e)).
    { destruct Hval as [[Hle' _]|[_ E]]; [lia|exact E]. }
    rewrite shl_align_keep by lia.
    rewrite binary_round_aux_shift.
    + cbv zeta. cbn [Zdigits2]. rewrite Hd, fexp_eq.
      replace (Z.max (53 + e' - 53) (-1074)) with e' by lia.
      assert (Hr : round_half_even (Zpos M) (e' - e) = Zpos m').
      { unfold round_half_even. rewrite E, Z.mod_mul, Z.div_mul
          by (apply Z.pow_nonzero; lia).
        pose proof (Z.pow_pos_nonneg 2 (e' - e) ltac:(lia) ltac:(lia)) as Hp.
        destruct (Z.compare_spec (2 * 0) (2 ^ (e' - e))); lia. }
      rewrite Hr. destruct (Z.ltb_spec (Zpos m') (2 ^ 53)); [|lia]. reflexivity.
    + lia.
    + cbn [Zdigits2]. rewrite Hd, fexp_eq. lia.
    + cbv zeta. cbn [Zdigits2]. rewrite Hd, fexp_eq.
      replace (Z.max (53 + e' - 53) (-1074)) with e' by lia.
      unfold round_half_even. rewrite E, Z.mod_mul, Z.div_mul
        by (apply Z.pow_nonzero; lia).
      pose proof (Z.pow_pos_nonneg 2 (e' - e) ltac:(lia) ltac:(lia)) as Hp.
      destruct (Z.compare_spec (2 * 0) (2 ^ (e' - e))); lia.
    + cbn [Zdigits2]. rewrite Hd, fexp_eq. lia.
Qed.

(** ** Canonical results *)

(** Rounding a positive mantissa that is not more precise than the format
    asks gives a zero, an infinity, or a canonical number: fewer than 54
    digits, and 53 of them unless the exponent is the smallest one. *)
Lemma binary_round_aux_bounds (sx : bool) (mx ex : Z) (lx : location) :
  0 < mx ->
  let e0 := fexp F64.prec F64.emax (Zdigits2 mx + ex) in
  ex <= e0 ->
  exists m3 e3,
    binary_round_aux F64.prec F64.emax sx mx ex lx =
      match m3 with
      | Z0 => S754_zero sx
      | Zpos m => if e3 <=? F64.emax - F64.prec
                  then S754_finite sx m e3 else S754_infinity sx
      | Zneg _ => S754_nan
      end
    /\ 0 <= m3 < 2 ^ 53
    /\ e0 <= e3 <= e0 + 1
    /\ (m3 = 0 \/ e3 = -1074 \/ 2 ^ 52 <= m3).
Proof.
  intros Hm e0 He. unfold binary_round_aux.
  pose proof (shr_fexp_m mx ex lx ltac:(lia)) as [H1 H1e].
  fold e0 in H1, H1e.
  destruct (shr_fexp F64.prec F64.emax mx ex lx) as [mrs' e'].
  cbn [fst snd] in H1, H1e.
  replace (Z.max 0 (e0 - ex)) with (e0 - ex) in * by lia.
  replace (ex + (e0 - ex)) with e0 in H1e by lia. subst e'.
  pose proof (round_nearest_even_bounds (shr_m mrs') (loc_of_shr_record mrs'))
    as Hr.
  set (m2 := round_nearest_even (shr_m mrs') (loc_of_shr_record mrs')) in *.
  set (m1 := shr_m mrs') in *.
  pose proof (Zdigits2_bounds mx Hm) as [Hlo Hhi].
  pose proof (Zdigits2_pos mx Hm) as Hd.
  set (d := Zdigits2 mx) in *.
  assert (He0 : e0 = Z.max (d + ex - 53) (-1074)) by reflexivity.
  pose proof (Z.pow_pos_nonneg 2 (e0 - ex) ltac:(lia) ltac:(lia)) as Hp.
  assert (Hm1 : 0 <= m1 < 2 ^ 53).
  { rewrite H1. split; [apply Z.div_pos; lia|].
    apply Z.div_lt_upper_bound; [lia|].
    rewrite <- Z.pow_add_r by lia.
    assert (2 ^ d <= 2 ^ (e0 - ex + 53)) by (apply Z.pow_le_mono_r; lia).
    lia. }
  assert (Hm1' : e0 = -1074 \/ 2 ^ 52 <= m1).
  { destruct (Z.eq_dec e0 (-1074)) as [E|E]; [left; exact E|right].
    rewrite H1. apply Z.div_le_lower_bound; [lia|].
    rewrite <- Z.pow_add_r by lia.
    replace (e0 - ex + 52) with (d - 1) by lia. exact Hlo. }
  pose proof (shr_fexp_m m2 e0 loc_Exact ltac:(lia)) as [H2 H2e].
  destruct (shr_fexp F64.prec F64.emax m2 e0 loc_Exact) as [mrs'' e''].
  cbn [fst snd] in H2, H2e.
  exists (shr_m mrs''), e''. split; [reflexivity|].
  rewrite fexp_eq in H2, H2e.
  destruct (Z.eq_dec m2 0) as [E0|E0].
  - rewrite E0 in *. change (Zdigits2 0) with 0 in *.
    replace (Z.max 0 (Z.max (0 + e0 - 53) (-1074) - e0)) with 0 in * by lia.
    rewrite H2, H2e. change (0 / 2 ^ 0) with 0. lia.
  - destruct (Z.eq_dec m2 (2 ^ 53)) as [E53|E53].
    + rewrite E53 in *. change (Zdigits2 (2 ^ 53)) with 54 in *.
      replace (Z.max 0 (Z.max (54 + e0 - 53) (-1074) - e0)) with 1 in * by lia.
      rewrite H2, H2e. change (2 ^ 53 / 2 ^ 1) with (2 ^ 52).
      simpl. lia.
    + assert (Hm2 : 0 < m2 < 2 ^ 53) by lia.
      pose proof (Zdigits2_bounds m2 ltac:(lia)) as [Hlo2 _].
      assert (Hd2 : Zdigits2 m2 <= 53).
      { destruct (Z.le_gt_cases (Zdigits2 m2) 53) as [H|H]; [exact H|].
        assert (2 ^ 53 <= 2 ^ (Zdigits2 m2 - 1)) by (apply Z.pow_le_mono_r; lia).
        lia. }
      replace (Z.max 0 (Z.max (Zdigits2 m2 + e0 - 53) (-1074) - e0)) with 0 in *
        by lia.
      rewrite H2, H2e, Z.pow_0_r, Z.div_1_r. lia.
Qed.

(** [float(p)] is exact for a positive integer below [2^53]. *)
Lemma of_Z_exact (p : positive) :
  Zpos p < 2 ^ 53 ->
  exists m,
    F64.of_Z (Zpos p) = S754_finite false m (Zdigits2 (Zpos p) - 53)
    /\ 2 ^ 52 <= Zpos m < 2 ^ 53.
Proof.
  intros Hp.
  pose proof (Zdigits2_bounds (Zpos p) ltac:(lia)) as [Hlo Hhi].
  pose proof (Zdigits2_pos (Zpos p) ltac:(lia)) as Hd.
  set (d := Zdigits2 (Zpos p)) in *.
  assert (Hd53 : d <= 53).
  { destruct (Z.le_gt_cases d 53) as [H|H]; [exact H|].
    assert (2 ^ 53 <= 2 ^ (d - 1)) by (apply Z.pow_le_mono_r; lia). lia. }
  pose proof (Z.pow_pos_nonneg 2 (53 - d) ltac:(lia) ltac:(lia)) as Hpw.
  assert (E52 : 2 ^ 52 = 2 ^ (d - 1) * 2 ^ (53 - d))
    by (rewrite <- Z.pow_add_r by lia; f_equal; lia).
  assert (E53 : 2 ^ 53 = 2 ^ d * 2 ^ (53 - d))
    by (rewrite <- Z.pow_add_r by lia; f_equal; lia).
  exists (Z.to_pos (Zpos p * 2 ^ (53 - d))).
  rewrite Z2Pos.id by lia. split; [|nia].
  unfold F64.of_Z, binary_normalize.
  apply binary_round_exact.
  - rewrite Z2Pos.id by lia. nia.
  - lia.
  - left. rewrite Z2Pos.id by lia. split; [lia|]. f_equal. f_equal. lia.
Qed.

(** [float(p)] for any positive integer is a normal number, at least 1, or
    [+inf]. *)
Lemma of_Z_pos_class (p : positive) :
  F64.of_Z (Zpos p) = S754_infinity false
  \/ exists m e,
       F64.of_Z (Zpos p) = S754_finite false m e
       /\ 2 ^ 52 <= Zpos m < 2 ^ 53 /\ -52 <= e <= 971.
Proof.
  pose proof (binary_round_nonzero false p 0) as Hnz.
  unfold F64.of_Z, binary_normalize, binary_round in *.
  pose proof (shl_align_digits p 0
                (fexp F64.prec F64.emax (Zpos (digits2_pos p) + 0))) as Hdig.
  pose proof (Zdigits2_pos (Zpos p) ltac:(lia)) as Hd. cbn [Zdigits2] in Hd.
  assert (He : snd (shl_align p 0
                      (fexp F64.prec F64.emax (Zpos (digits2_pos p) + 0)))
               <= Zpos (digits2_pos p) - 53).
  { rewrite fexp_eq.
    destruct (Z.le_gt_cases (Z.max (Zpos (digits2_pos p) + 0 - 53) (-1074)) 0)
      as [H|H].
    - destruct (shl_align_spec p 0 _ H) as [_ ->]. lia.
    - rewrite shl_align_keep by lia. cbn [snd]. lia. }
  destruct (shl_align p 0 _) as [mz ez]. cbn [fst snd] in *.
  destruct (binary_round_aux_bounds false (Zpos mz) ez loc_Exact ltac:(lia))
    as (m3 & e3 & E & Hm3 & He3 & Hc).
  { cbn [Zdigits2]. rewrite Hdig, fexp_eq. lia. }
  cbn [Zdigits2] in He3. rewrite Hdig, fexp_eq in He3.
  rewrite E in *. specialize (Hnz ltac:(unfold emin, F64.prec, F64.emax; lia)).
  destruct m3 as [|m|m]; cbn [nonzero_signed] in Hnz; try contradiction.
  destruct (Z.leb_spec e3 (F64.emax - F64.prec)) as [Hle|Hgt];
    [right|left; reflexivity].
  exists m, e3. split; [reflexivity|].
  unfold F64.emax, F64.prec in Hle. lia.
Qed.

(** The quotient of an integer below [2^32] by a positive integer is [+0]
    or a canonical positive number below [2^33]. *)
Lemma div_class (m1 m2 : positive) (e1 e2 : Z) :
  2 ^ 52 <= Zpos m1 < 2 ^ 53 -> 2 ^ 52 <= Zpos m2 < 2 ^ 53 ->
  -52 <= e1 <= -21 -> -52 <= e2 <= 971 ->
  let x := F64.div (S754_finite false m1 e1) (S754_finite false m2 e2) in
  x = S754_zero false
  \/ exists mx ex,
       x = S754_finite false mx ex
       /\ Zpos mx < 2 ^ 53 /\ ex <= -20
       /\ (ex = -1074 \/ 2 ^ 52 <= Zpos mx).
Proof.
  intros Hm1 Hm2 He1 He2 x. unfold x, F64.div, SFdiv, SFdiv_core_binary.
  assert (Hd1 : Zdigits2 (Zpos m1) = 53)
    by (apply Zdigits2_unique; [lia|simpl; lia]).
  assert (Hd2 : Zdigits2 (Zpos m2) = 53)
    by (apply Zdigits2_unique; [lia|simpl; lia]).
  rewrite Hd1, Hd2, fexp_eq.
  set (e' := Z.min (Z.max (53 + e1 - (53 + e2) - 53) (-1074)) (e1 - e2)).
  assert (He' : e' = Z.max (e1 - e2 - 53) (-1074)) by (unfold e'; lia).
  set (s := e1 - e2 - e').
  assert (Hs : 0 < s <= 53) by (unfold s; lia).
  set (m' := match s with Z0 => _ | Zpos _ => _ | Zneg _ => _ end).
  assert (Em' : m' = Zpos m1 * 2 ^ s).
  { unfold m'. destruct s as [|ps|ps] eqn:Es; try lia.
    apply Z.shiftl_mul_pow2. lia. }
  pose proof (Z.pow_pos_nonneg 2 (s - 1) ltac:(lia) ltac:(lia)) as Hps.
  assert (E2s : 2 ^ s = 2 * 2 ^ (s - 1)).
  { rewrite <- (Z.pow_succ_r 2 (s - 1)) by lia. f_equal. lia. }
  assert (Hq : 2 ^ (s - 1) <= m' / Zpos m2 < 2 ^ (s + 1)).
  { split.
    - apply Z.div_le_lower_bound; [lia|]. rewrite Em'. nia.
    - apply Z.div_lt_upper_bound; [lia|]. rewrite Em', Z.pow_add_r by lia.
      nia. }
  unfold Z.div in Hq.
  destruct (Z.div_eucl m' (Zpos m2)) as [q r].
  assert (Hq0 : 0 < q) by lia.
  pose proof (Zdigits2_bounds q Hq0) as [Hqlo Hqhi].
  assert (Hdq : s <= Zdigits2 q <= s + 1).
  { split.
    - destruct (Z.le_gt_cases s (Zdigits2 q)) as [H|H]; [exact H|].
      assert (2 ^ Zdigits2 q <= 2 ^ (s - 1)) by (apply Z.pow_le_mono_r; lia).
      lia.
    - destruct (Z.le_gt_cases (Zdigits2 q) (s + 1)) as [H|H]; [exact H|].
      assert (2 ^ (s + 1) <= 2 ^ (Zdigits2 q - 1))
        by (apply Z.pow_le_mono_r; lia).
      lia. }
  destruct (binary_round_aux_bounds (xorb false false) q e'
              (new_location (Zpos m2) r) Hq0)
    as (m3 & e3 & E & Hm3 & He3 & Hc).
  { rewrite fexp_eq. unfold s in Hdq. lia. }
  rewrite fexp_eq in He3. rewrite E.
  destruct m3 as [|m|m]; [left; reflexivity| |lia].
  right. exists m, e3.
  replace (e3 <=? F64.emax - F64.prec) with true
    by (symmetry; apply Z.leb_le; unfold F64.emax, F64.prec, s in *; lia).
  split; [reflexivity|]. unfold s in *.
  split; [lia|]. split; [lia|].
  destruct Hc as [Hc|[Hc|Hc]]; [lia|left; exact Hc|right; exact Hc].
Qed.

(** ** Sums that round to 1 *)

Lemma round_half_even_cases (M n q r : Z) :
  0 <= n -> 0 <= r < 2 ^ n -> M = q * 2 ^ n + r ->
  round_half_even M n
  = match 2 * r ?= 2 ^ n with
    | Lt => q
    | Eq => if Z.even q then q else q + 1
    | Gt => q + 1
    end.
Proof.
  intros Hn Hr E. unfold round_half_even.
  assert (Hq : M / 2 ^ n = q) by (symmetry; apply (Z.div_unique _ _ q r); lia).
  assert (Hm : M mod 2 ^ n = r) by (symmetry; apply (Z.mod_unique _ _ q r); lia).
  rewrite Hq, Hm. reflexivity.
Qed.

(** Rounding to nearest moves a number by half a unit at most. *)
Lemma round_half_even_error (M n : Z) :
  0 <= M -> 1 <= n ->
  - 2 ^ (n - 1) <= round_half_even M n * 2 ^ n - M <= 2 ^ (n - 1)
  /\ M / 2 ^ n <= round_half_even M n <= M / 2 ^ n + 1.
Proof.
  intros HM Hn.
  pose proof (Z.pow_pos_nonneg 2 (n - 1) ltac:(lia) ltac:(lia)) as Hp.
  assert (E2 : 2 ^ n = 2 * 2 ^ (n - 1)).
  { rewrite <- (Z.pow_succ_r 2 (n - 1)) by lia. f_equal. lia. }
  pose proof (Z.div_mod M (2 ^ n) ltac:(lia)) as Hdm.
  pose proof (Z.mod_pos_bound M (2 ^ n) ltac:(lia)) as Hr.
  unfold round_half_even.
  destruct (Z.compare_spec (2 * (M mod 2 ^ n)) (2 ^ n));
    try destruct (Z.even (M / 2 ^ n)); nia.
Qed.

Lemma one_eq : F64.one = S754_finite false 4503599627370496 (-52).
Proof. reflexivity. Qed.

Lemma pow2_52 : 2 ^ 52 = 4503599627370496.
Proof. reflexivity. Qed.

Lemma pow2_53 : 2 ^ 53 = 9007199254740992.
Proof. reflexivity. Qed.

Lemma pow2_split (c n : Z) : 0 <= c -> 0 <= n -> 2 ^ (c + n) = 2 ^ c * 2 ^ n.
Proof. intros. apply Z.pow_add_r; lia. Qed.

Lemma pow2_double (n : Z) : 1 <= n -> 2 ^ n = 2 * 2 ^ (n - 1).
Proof.
  intros. rewrite <- (Z.pow_succ_r 2 (n - 1)) by lia. f_equal. lia.
Qed.

(** A sum within half a unit in the last place of 1 rounds to 1. *)
Lemma binary_normalize_near_one (S ex : Z) :
  ex <= -54 ->
  2 ^ (- ex) - 2 ^ (- 54 - ex) <= S <= 2 ^ (- ex) + 2 ^ (- 54 - ex) ->
  binary_normalize F64.prec F64.emax S ex false = F64.one.
Proof.
  intros Hex HS.
  set (n := - 53 - ex) in *.
  assert (Hn : 1 <= n) by (unfold n; lia).
  replace (- 54 - ex) with (n - 1) in HS by (unfold n; lia).
  replace (- ex) with (53 + n) in HS by (unfold n; lia).
  pose proof (Z.pow_pos_nonneg 2 (n - 1) ltac:(lia) ltac:(lia)) as Hp.
  pose proof (pow2_double n Hn) as En.
  pose proof (pow2_split 53 n ltac:(lia) ltac:(lia)) as E53.
  pose proof (pow2_split 52 n ltac:(lia) ltac:(lia)) as E52.
  pose proof (pow2_split 54 n ltac:(lia) ltac:(lia)) as E54.
  pose proof (pow2_split n 1 ltac:(lia) ltac:(lia)) as En1.
  pose proof pow2_52 as C52. pose proof pow2_53 as C53.
  change (2 ^ 54) with 18014398509481984 in E54.
  change (2 ^ 1) with 2 in En1.
  rewrite C53 in E53. rewrite C52 in E52.
  assert (HSpos : 0 < S) by lia.
  destruct S as [|pS|pS]; try lia.
  cbn [binary_normalize]. unfold binary_round.
  destruct (Z.le_gt_cases (2 ^ (53 + n)) (Zpos pS)) as [Hge|Hlt].
  - (* at or just above 1 *)
    assert (Hd : Zpos (digits2_pos pS) = 54 + n).
    { apply (Zdigits2_unique (Zpos pS) (54 + n)); [lia|].
      replace (54 + n - 1) with (53 + n) by lia. lia. }
    rewrite Hd, fexp_eq.
    replace (Z.max (54 + n + ex - 53) (-1074)) with (-52) by (unfold n; lia).
    rewrite shl_align_keep by lia.
    assert (Hr : round_half_even (Zpos pS) (n + 1) = 2 ^ 52).
    { rewrite (round_half_even_cases (Zpos pS) (n + 1) (2 ^ 52)
                 (Zpos pS - 2 ^ (53 + n))) by lia.
      destruct (Z.compare_spec (2 * (Zpos pS - 2 ^ (53 + n))) (2 ^ (n + 1)));
        lia. }
    rewrite binary_round_aux_shift; cbn [Zdigits2]; rewrite ?Hd, ?fexp_eq;
      replace (Z.max (54 + n + ex - 53) (-1074)) with (-52) by (unfold n; lia);
      try lia.
    + cbv zeta. replace (-52 - ex) with (n + 1) by (unfold n; lia).
      rewrite Hr. reflexivity.
    + cbv zeta. replace (-52 - ex) with (n + 1) by (unfold n; lia).
      rewrite Hr. lia.
  - (* just below 1 *)
    assert (Hd : Zpos (digits2_pos pS) = 53 + n).
    { apply (Zdigits2_unique (Zpos pS) (53 + n)); [lia|].
      replace (53 + n - 1) with (52 + n) by lia. lia. }
    rewrite Hd, fexp_eq.
    replace (Z.max (53 + n + ex - 53) (-1074)) with (-53) by (unfold n; lia).
    rewrite shl_align_keep by lia.
    assert (Hr : round_half_even (Zpos pS) n = 2 ^ 53).
    { rewrite (round_half_even_cases (Zpos pS) n (2 ^ 53 - 1)
                 (Zpos pS - (2 ^ 53 - 1) * 2 ^ n)) by lia.
      change (Z.even (2 ^ 53 - 1)) with false.
      destruct (Z.compare_spec (2 * (Zpos pS - (2 ^ 53 - 1) * 2 ^ n)) (2 ^ n));
        try lia; reflexivity. }
    rewrite binary_round_aux_shift; cbn [Zdigits2]; rewrite ?Hd, ?fexp_eq;
      replace (Z.max (53 + n + ex - 53) (-1074)) with (-53) by (unfold n; lia);
      try lia.
    + cbv zeta. replace (-53 - ex) with n by (unfold n; lia).
      rewrite Hr. reflexivity.
    + cbv zeta. replace (-53 - ex) with n by (unfold n; lia).
      rewrite Hr. lia.
Qed.

(** An integer that is exactly 1 at its exponent normalizes to 1. *)
Lemma binary_normalize_one (S e : Z) :
  -1000 <= e <= 0 -> S = 2 ^ (- e) ->
  binary_normalize F64.prec F64.emax S e false = F64.one.
Proof.
  intros He ->.
  pose proof (Z.pow_pos_nonneg 2 (- e) ltac:(lia) ltac:(lia)) as Hp.
  destruct (2 ^ (- e)) as [|pS|pS] eqn:E; try lia.
  cbn [binary_normalize]. rewrite one_eq.
  apply binary_round_exact; [rewrite pow2_52, pow2_53; lia|lia|].
  destruct (Z.le_gt_cases e (-52)) as [Hle|Hgt].
  - right. split; [exact Hle|]. rewrite <- E.
    change (Zpos 4503599627370496) with (2 ^ 52).
    rewrite <- Z.pow_add_r by lia. f_equal. lia.
  - left. split; [lia|]. rewrite <- E.
    change (Zpos 4503599627370496) with (2 ^ 52).
    rewrite <- Z.pow_add_r by lia. f_equal. lia.
Qed.

(** [(1 - x) + x] for a positive [x] below [1/2] that is finer than the
    spacing of the floats below 1: the difference is rounded, and the sum
    rounds back to 1. *)
Lemma complement_tiny (mx : positive) (ex : Z) :
  Zpos mx < 2 ^ 53 -> ex <= -54 ->
  F64.add (F64.sub F64.one (S754_finite false mx ex)) (S754_finite false mx ex)
  = F64.one.
Proof.
  intros Hmx Hex.
  set (n := - 53 - ex).
  assert (Hn : 1 <= n) by (unfold n; lia).
  pose proof (Z.pow_pos_nonneg 2 (n - 1) ltac:(lia) ltac:(lia)) as Hp.
  pose proof (pow2_double n Hn) as En.
  pose proof (pow2_split 53 n ltac:(lia) ltac:(lia)) as E53.
  pose proof (pow2_split 52 n ltac:(lia) ltac:(lia)) as E52.
  pose proof (pow2_split n 1 ltac:(lia) ltac:(lia)) as En1.
  pose proof pow2_52 as C52. pose proof pow2_53 as C53.
  change (2 ^ 1) with 2 in En1.
  rewrite C53 in E53. rewrite C52 in E52. rewrite C53 in Hmx.
  rewrite one_eq at 1. unfold F64.sub, SFsub.
  replace (Z.min (-52) ex) with ex by lia.
  destruct (shl_align_spec 4503599627370496 (-52) ex ltac:(lia)) as [H1 _].
  rewrite (shl_align_keep mx ex ex) by lia. cbn [fst cond_Zopp]. rewrite H1.
  replace (-52 - ex) with (n + 1) by (unfold n; lia).
  assert (HM : 2 ^ (52 + n) < 4503599627370496 * 2 ^ (n + 1) - Zpos mx
               < 2 ^ (53 + n)) by lia.
  destruct (4503599627370496 * 2 ^ (n + 1) - Zpos mx) as [|pM|pM] eqn:EM;
    try lia.
  cbn [binary_normalize]. unfold binary_round.
  assert (Hd : Zpos (digits2_pos pM) = 53 + n).
  { apply (Zdigits2_unique (Zpos pM) (53 + n)); [lia|].
    replace (53 + n - 1) with (52 + n) by lia. lia. }
  rewrite Hd, fexp_eq.
  replace (Z.max (53 + n + ex - 53) (-1074)) with (-53) by (unfold n; lia).
  rewrite shl_align_keep by lia.
  pose proof (round_half_even_error (Zpos pM) n ltac:(lia) Hn) as [Herr Hq].
  assert (Hq' : 2 ^ 52 <= Zpos pM / 2 ^ n <= 2 ^ 53 - 1).
  { split.
    - apply Z.div_le_lower_bound; lia.
    - enough (Zpos pM / 2 ^ n < 2 ^ 53) by lia.
      apply Z.div_lt_upper_bound; lia. }
  set (m2 := round_half_even (Zpos pM) n) in *.
  rewrite binary_round_aux_shift; cbn [Zdigits2]; rewrite ?Hd, ?fexp_eq;
    replace (Z.max (53 + n + ex - 53) (-1074)) with (-53) by (unfold n; lia);
    try lia.
  2:{ cbv zeta. replace (-53 - ex) with n by (unfold n; lia). fold m2. lia. }
  cbv zeta. replace (-53 - ex) with n by (unfold n; lia). fold m2.
  destruct (Z.ltb_spec m2 (2 ^ 53)) as [Hlt|Hge].
  - unfold F64.add, SFadd.
    replace (Z.min (-53) ex) with ex by lia.
    destruct (shl_align_spec (Z.to_pos m2) (-53) ex ltac:(lia)) as [H2 _].
    rewrite (shl_align_keep mx ex ex) by lia. cbn [fst cond_Zopp].
    rewrite H2, Z2Pos.id by lia.
    replace (-53 - ex) with n by (unfold n; lia).
    apply binary_normalize_near_one; [lia|].
    replace (- ex) with (53 + n) by (unfold n; lia).
    replace (- 54 - ex) with (n - 1) by (unfold n; lia).
    lia.
  - assert (E2 : m2 = 2 ^ 53) by lia.
    unfold F64.add, SFadd.
    replace (Z.min (-52 + 1 - 1) ex) with ex by lia.
    replace (Z.min (-53 + 1) ex) with ex by lia.
    destruct (shl_align_spec (Z.to_pos (2 ^ 52)) (-53 + 1) ex ltac:(lia))
      as [H2 _].
    rewrite (shl_align_keep mx ex ex) by lia. cbn [fst cond_Zopp].
    rewrite H2. change (Zpos (Z.to_pos (2 ^ 52))) with 4503599627370496.
    replace (-53 + 1 - ex) with (n + 1) by (unfold n; lia).
    apply binary_normalize_near_one; [lia|].
    replace (- ex) with (53 + n) by (unfold n; lia).
    replace (- 54 - ex) with (n - 1) by (unfold n; lia).
    lia.
Qed.

Lemma Zdigits2_le_53 (q : Z) : 0 < q < 2 ^ 53 -> 1 <= Zdigits2 q <= 53.
Proof.
  intros Hq.
  pose proof (Zdigits2_bounds q ltac:(lia)) as [Hlo _].
  pose proof (Zdigits2_pos q ltac:(lia)) as Hd.
  split; [lia|].
  destruct (Z.le_gt_cases (Zdigits2 q) 53) as [H|H]; [exact H|].
  assert (2 ^ 53 <= 2 ^ (Zdigits2 q - 1)) by (apply Z.pow_le_mono_r; lia).
  lia.
Qed.

(** A positive integer [q] of at most 53 digits, shifted to 53 digits. *)
Lemma normal_mantissa (q : Z) :
  0 < q < 2 ^ 53 ->
  2 ^ 52 <= q * 2 ^ (53 - Zdigits2 q) < 2 ^ 53.
Proof.
  intros Hq.
  pose proof (Zdigits2_bounds q ltac:(lia)) as [Hlo Hhi].
  pose proof (Zdigits2_le_53 q Hq) as Hd.
  set (d := Zdigits2 q) in *.
  pose proof (Z.pow_pos_nonneg 2 (53 - d) ltac:(lia) ltac:(lia)) as Hp.
  assert (E52 : 2 ^ 52 = 2 ^ (d - 1) * 2 ^ (53 - d))
    by (rewrite <- Z.pow_add_r by lia; f_equal; lia).
  assert (E53 : 2 ^ 53 = 2 ^ d * 2 ^ (53 - d))
    by (rewrite <- Z.pow_add_r by lia; f_equal; lia).
  split.
  - rewrite E52. apply Z.mul_le_mono_nonneg_r; lia.
  - rewrite E53. apply Z.mul_lt_mono_pos_r; lia.
Qed.

(** [(1 - x) + x] for [x] from 1/2 to below [2^53]: the difference is
    exact, and so is the sum. *)
Lemma complement_normal (mx : positive) (ex : Z) :
  2 ^ 52 <= Zpos mx < 2 ^ 53 -> -53 <= ex <= 0 ->
  F64.add (F64.sub F64.one (S754_finite false mx ex)) (S754_finite false mx ex)
  = F64.one.
Proof.
  intros Hmx Hex.
  pose proof pow2_52 as C52. pose proof pow2_53 as C53.
  rewrite one_eq at 1. unfold F64.sub, SFsub.
  destruct (Z.eq_dec ex (-53)) as [->|Hne].
  - (* 1/2 <= x < 1 *)
    change (Z.min (-52) (-53)) with (-53).
    change (fst (shl_align 4503599627370496 (-52) (-53)))
      with 9007199254740992%positive.
    rewrite shl_align_keep by lia. cbn [fst cond_Zopp].
    assert (HM : 0 < 9007199254740992 - Zpos mx < 2 ^ 53) by lia.
    destruct (9007199254740992 - Zpos mx) as [|pM|pM] eqn:EM; try lia.
    cbn [binary_normalize].
    pose proof (normal_mantissa (Zpos pM) HM) as Hm'.
    pose proof (Zdigits2_le_53 (Zpos pM) HM) as Hd.
    set (d := Zdigits2 (Zpos pM)) in *.
    pose proof (Z.pow_pos_nonneg 2 (53 - d) ltac:(lia) ltac:(lia)) as Hp.
    rewrite (binary_round_exact false pM (-53)
               (Z.to_pos (Zpos pM * 2 ^ (53 - d))) (d - 106)).
    + unfold F64.add, SFadd.
      replace (Z.min (d - 106) (-53)) with (d - 106) by lia.
      rewrite shl_align_keep by lia.
      destruct (shl_align_spec mx (-53) (d - 106) ltac:(lia)) as [H2 _].
      cbn [fst cond_Zopp]. rewrite H2, Z2Pos.id by lia.
      replace (-53 - (d - 106)) with (53 - d) by lia.
      apply binary_normalize_one; [lia|].
      replace (- (d - 106)) with (53 + (53 - d)) by lia.
      rewrite pow2_split by lia. lia.
    + rewrite Z2Pos.id by lia. exact Hm'.
    + lia.
    + left. split; [lia|]. rewrite Z2Pos.id by lia.
      f_equal. f_equal. lia.
  - (* 1 <= x < 2^53 *)
    replace (Z.min (-52) ex) with (-52) by lia.
    rewrite shl_align_keep by lia.
    destruct (shl_align_spec mx ex (-52) ltac:(lia)) as [H1 _].
    cbn [fst cond_Zopp]. rewrite H1.
    replace (ex - -52) with (ex + 52) by lia.
    pose proof (Z.pow_pos_nonneg 2 (ex + 52) ltac:(lia) ltac:(lia)) as HA.
    pose proof (Z.pow_pos_nonneg 2 (- ex) ltac:(lia) ltac:(lia)) as HB.
    assert (EAB : 2 ^ (ex + 52) * 2 ^ (- ex) = 4503599627370496).
    { rewrite <- Z.pow_add_r by lia. replace (ex + 52 + - ex) with 52 by lia.
      reflexivity. }
    assert (HB52 : 2 ^ (- ex) <= 2 ^ 52) by (apply Z.pow_le_mono_r; lia).
    destruct (4503599627370496 - Zpos mx * 2 ^ (ex + 52)) as [|pM|pM] eqn:EM.
    + (* x = 1 *)
      cbn [binary_normalize]. unfold F64.add, SFadd. rewrite one_eq.
      assert (Ea : ex = -52).
      { destruct (Z.eq_dec ex (-52)) as [E|E]; [exact E|].
        pose proof (pow2_double (ex + 52) ltac:(lia)) as E2.
        pose proof (Z.pow_pos_nonneg 2 (ex + 52 - 1) ltac:(lia) ltac:(lia)).
        nia. }
      subst ex. change (2 ^ (-52 + 52)) with 1 in EM.
      assert (Em : Zpos mx = Zpos 4503599627370496) by lia.
      injection Em as ->. reflexivity.
    + nia.
    + (* x > 1 *)
      cbn [binary_normalize].
      set (q := Zpos mx - 2 ^ (- ex)).
      assert (EpM : Zpos pM = 2 ^ (ex + 52) * q) by (unfold q; nia).
      assert (Hq : 0 < q < 2 ^ 53) by (unfold q; nia).
      pose proof (normal_mantissa q Hq) as Hm'.
      pose proof (Zdigits2_le_53 q Hq) as Hd.
      set (d := Zdigits2 q) in *.
      pose proof (Z.pow_pos_nonneg 2 (53 - d) ltac:(lia) ltac:(lia)) as Hp.
      rewrite (binary_round_exact true pM (-52)
                 (Z.to_pos (q * 2 ^ (53 - d))) (ex + d - 53)).
      * unfold F64.add, SFadd.
        replace (Z.min (ex + d - 53) ex) with (ex + d - 53) by lia.
        rewrite shl_align_keep by lia.
        destruct (shl_align_spec mx ex (ex + d - 53) ltac:(lia)) as [H2 _].
        cbn [fst cond_Zopp]. rewrite H2, Z2Pos.id by lia.
        replace (ex - (ex + d - 53)) with (53 - d) by lia.
        apply binary_normalize_one; [lia|].
        replace (- (ex + d - 53)) with (- ex + (53 - d)) by lia.
        rewrite pow2_split by lia. unfold q. lia.
      * rewrite Z2Pos.id by lia. exact Hm'.
      * lia.
      * rewrite Z2Pos.id by lia. rewrite EpM.
        destruct (Z.le_gt_cases (ex + d - 53) (-52)) as [Hle|Hgt].
        -- left. split; [exact Hle|].
           replace (53 - d) with (ex + 52 + (-52 - (ex + d - 53))) by lia.
           rewrite pow2_split by lia. lia.
        -- right. split; [lia|].
           replace (ex + 52) with (53 - d + (ex + d - 53 - -52)) at 1 by lia.
           rewrite pow2_split by lia. lia.
Qed.

(** [(1 - x) + x] is exactly 1 for every rate [x] of a forward window: a
    counter difference below [2^32] over a positive number of rows. *)
Lemma complement_forward (k d : Z) :
  0 <= k < 2 ^ 32 -> 0 < d ->
  F64.add (F64.sub F64.one (F64.div (F64.of_Z k) (F64.of_Z d)))
          (F64.div (F64.of_Z k) (F64.of_Z d)) = F64.one.
Proof.
  intros Hk Hd.
  destruct d as [|pd|pd]; try lia.
  destruct k as [|pk|pk]; try lia.
  - (* no new failure *)
    change (F64.of_Z 0) with (S754_zero false).
    destruct (of_Z_pos_class pd) as [->|(m2 & e2 & -> & _)]; reflexivity.
  - assert (Hpk : Zpos pk < 2 ^ 53).
    { assert (2 ^ 32 < 2 ^ 53) by (apply Z.pow_lt_mono_r; lia). lia. }
    destruct (of_Z_exact pk Hpk) as (m1 & -> & Hm1).
    assert (He1 : -52 <= Zdigits2 (Zpos pk) - 53 <= -21).
    { pose proof (Zdigits2_bounds (Zpos pk) ltac:(lia)) as [Hlo _].
      pose proof (Zdigits2_pos (Zpos pk) ltac:(lia)) as Hdp.
      split; [lia|].
      destruct (Z.le_gt_cases (Zdigits2 (Zpos pk)) 32) as [H|H]; [lia|].
      assert (2 ^ 32 <= 2 ^ (Zdigits2 (Zpos pk) - 1))
        by (apply Z.pow_le_mono_r; lia).
      lia. }
    destruct (of_Z_pos_class pd) as [->|(m2 & e2 & -> & Hm2 & He2)];
      [reflexivity|].
    destruct (div_class m1 m2 _ e2 Hm1 Hm2 He1 He2)
      as [->|(mx & ex & -> & Hmx & Hex & Hc)]; [reflexivity|].
    destruct (Z.le_gt_cases ex (-54)) as [Hle|Hgt].
    + apply complement_tiny; assumption.
    + apply complement_normal; lia.
Qed.

Lemma complement_sum_forward (k d : Z) :
  0 <= k < 2 ^ 32 -> 0 < d -> complement_sum_is_one k d = true.
Proof.
  intros Hk Hd. unfold complement_sum_is_one.
  rewrite (complement_forward k d Hk Hd). reflexivity.
Qed.

(** ** Comparisons *)

Lemma SFcompare_antisym (x y : f64) :
  SFcompare y x = option_map CompOpp (SFcompare x y).
Proof.
  destruct x as [sx|sx| |sx mx ex], y as [sy|sy| |sy my ey];
    try destruct sx; try destruct sy; try reflexivity; simpl;
    rewrite (Z.compare_antisym ex ey);
    destruct (ex ?= ey); simpl; try reflexivity;
    pose proof (Pos.compare_cont_antisym mx my Eq) as H; simpl in H;
    rewrite <- H, ?CompOpp_involutive; reflexivity.
Qed.

Lemma ltb_false_leb (x y : f64) :
  F64.is_nan x = false -> F64.is_nan y = false ->
  F64.ltb x y = false -> F64.leb y x = true.
Proof.
  unfold F64.ltb, F64.leb, SFltb, SFleb. intros Hx Hy.
  rewrite (SFcompare_antisym x y).
  destruct (SFcompare x y) as [[| |]|] eqn:E; simpl; intros H;
    try reflexivity; try discriminate.
  destruct x, y; simpl in *; discriminate.
Qed.

(** ** Differences and quotients *)

Lemma sub_finite_not_nan (a b : f64) :
  F64.is_finite a = true -> F64.is_finite b = true ->
  F64.is_nan (F64.sub a b) = false.
Proof.
  destruct a as [sa|sa| |sa ma ea], b as [sb|sb| |sb mb eb];
    try discriminate; intros _ _; unfold F64.sub, SFsub.
  - destruct sa, sb; reflexivity.
  - reflexivity.
  - reflexivity.
  - apply binary_normalize_not_nan.
Qed.

(** [x - x] is [+0] for every finite [x]. *)
Lemma sub_diag_finite (x : f64) :
  F64.is_finite x = true -> F64.sub x x = F64.zero.
Proof.
  destruct x as [s|s| |s m e]; try discriminate; intros _;
    unfold F64.sub, SFsub.
  - destruct s; reflexivity.
  - rewrite Z.sub_diag. reflexivity.
Qed.

Lemma div_one_not_nan (d : f64) :
  F64.is_nan d = false -> F64.is_nan (F64.div F64.one d) = false.
Proof.
  destruct d as [s|s| |s m e]; try discriminate; intros _; try reflexivity.
  change F64.one with (S754_finite false 4503599627370496 (-52)).
  unfold F64.div, SFdiv, SFdiv_core_binary.
  set (m' := match _ with Z0 => _ | Zpos _ => _ | Zneg _ => _ end).
  assert (Hm' : 0 <= m').
  { unfold m'.
    destruct (-52 - e - _) as [|p|p]; try lia.
    apply Z.shiftl_nonneg. lia. }
  pose proof (Z.div_pos m' (Zpos m) Hm' ltac:(lia)) as Hq.
  unfold Z.div in Hq.
  destruct (Z.div_eucl m' (Zpos m)) as [q r].
  apply binary_round_aux_not_nan. exact Hq.
Qed.

(** [1 / +0 = +inf], which the cap replaces by 300. *)
Lemma bound_rate_div_zero :
  bound_rate (F64.div F64.one F64.zero) = F64.of_Z 300.
Proof. vm_compute. reflexivity. Qed.

Lemma bound_rate_le_300 (r : f64) :
  F64.is_nan r = false -> F64.leb (bound_rate r) (F64.of_Z 300) = true.
Proof.
  intros Hr. unfold bound_rate.
  destruct (F64.ltb (F64.of_Z 300) r) eqn:E.
  - vm_compute. reflexivity.
  - apply ltb_false_leb; [reflexivity|exact Hr|exact E].
Qed.

(** ** [seizure_fail_rate] and [answer_seizure_ratio] *)

Lemma getitem_in_range (a : list Z) (i : Z) :
  in_range (length a) i = true -> getitem a i = Ok (item a i).
Proof.
  unfold in_range, getitem, item. intros H.
  apply andb_true_iff in H as [Hlo Hhi].
  apply Z.leb_le in Hlo. apply Z.ltb_lt in Hhi.
  set (j := if i <? 0 then Z.of_nat (length a) + i else i).
  assert (Hj : 0 <= j < Z.of_nat (length a))
    by (unfold j; destruct (Z.ltb_spec i 0); lia).
  destruct (Z.leb_spec 0 j); [|lia].
  destruct (Z.ltb_spec j (Z.of_nat (length a))); [|lia].
  cbn [andb].
  destruct (nth_error a (Z.to_nat j)) as [x|] eqn:E.
  - rewrite (nth_error_nth _ _ 0 E). reflexivity.
  - apply nth_error_None in E. lia.
Qed.

Lemma getitem_out_of_range {A : Type} (a : list A) (i : Z) :
  in_range (length a) i = false -> getitem a i = Raise IndexError.
Proof.
  unfold in_range, getitem. intros H.
  apply andb_false_iff in H.
  set (j := if i <? 0 then Z.of_nat (length a) + i else i).
  destruct ((0 <=? j) && (j <? Z.of_nat (length a))) eqn:E; [|reflexivity].
  apply andb_true_iff in E as [Hlo Hhi].
  apply Z.leb_le in Hlo. apply Z.ltb_lt in Hhi.
  exfalso. unfold j in *.
  destruct H as [H|H]; [apply Z.leb_gt in H|apply Z.ltb_ge in H];
    destruct (Z.ltb_spec i 0); lia.
Qed.

Lemma float_truediv_of_Z (num : f64) (d : Z) :
  float_truediv num (F64.of_Z d) =
    if d =? 0 then Raise ZeroDivisionError
    else Ok (F64.div num (F64.of_Z d)).
Proof. unfold float_truediv. rewrite of_Z_eqb_zero. reflexivity. Qed.

Lemma seizure_fail_rate_eq (self : CappedArray) (w : World) (start end_ : Z) :
  seizure_fail_rate self w start end_
  = seizure_fail_rate_cases (column num_failed_calls self w) start end_.
Proof.
  unfold seizure_fail_rate, seizure_fail_rate_cases, normalized_end.
  set (array := column num_failed_calls self w).
  set (end' := if end_ <? 0 then Z.of_nat (length array) + end_ else end_).
  destruct (in_range (length array) end') eqn:He.
  - rewrite (getitem_in_range _ _ He). cbn [bind andb].
    destruct (in_range (length array) start) eqn:Hs.
    + rewrite (getitem_in_range _ _ Hs). cbn [bind].
      rewrite float_truediv_of_Z.
      destruct (Z.eqb_spec (end' - start) 0), (Z.eqb_spec start end');
        try lia; reflexivity.
    + rewrite (getitem_out_of_range _ _ Hs). reflexivity.
  - rewrite (getitem_out_of_range _ _ He). reflexivity.
Qed.

(** C7, as stated, fails: on a view of four rows, [start = end = 4] are
    equal, yet the call raises [IndexError], not a division by zero. *)
Lemma seizure_fail_rate_equal_indices_out_of_range :
  exists bs self w,
    fill 4 (repeat zero_row 4) = Ok (bs, self, w)
    /\ normalized_end (length (column num_failed_calls self w)) 4 = 4
    /\ seizure_fail_rate self w 4 4 = Raise IndexError
    /\ ~ (seizure_fail_rate self w 4 4 = Raise ZeroDivisionError
          <-> 4 = normalized_end (length (column num_failed_calls self w)) 4).
Proof.
  eexists _, _, _. split; [vm_compute; reflexivity|].
  split; [reflexivity|]. split; [reflexivity|].
  intros [_ H]. specialize (H eq_refl). discriminate H.
Qed.

(** C7, amended: with [end'] the normalized end and both indices in numpy's
    range [-length <= i < length], [seizure_fail_rate] raises
    [ZeroDivisionError] if and only if [start = end'], and for
    [start <> end'] it returns the [uint32] difference of the two counters
    divided by [end' - start]; an index out of range raises [IndexError]. *)
Theorem seizure_fail_rate_division_by_zero
    (self : CappedArray) (w : World) (start end_ : Z) :
  let array := column num_failed_calls self w in
  let n := length array in
  let end' := normalized_end n end_ in
  (seizure_fail_rate self w start end_ = Raise ZeroDivisionError
     <-> in_range n end' = true /\ in_range n start = true /\ start = end')
  /\ (in_range n end' = true -> in_range n start = true -> start <> end' ->
      seizure_fail_rate self w start end_
      = Ok (F64.div (F64.of_Z (uint32 (item array end' - item array start)))
                    (F64.of_Z (end' - start))))
  /\ (in_range n end' && in_range n start = false ->
      seizure_fail_rate self w start end_ = Raise IndexError).
Proof.
  intros array n end'. rewrite seizure_fail_rate_eq.
  unfold seizure_fail_rate_cases. fold array n end'.
  destruct (in_range n end') eqn:He, (in_range n start) eqn:Hs; cbn [andb];
    destruct (Z.eqb_spec start end') as [E|E];
    (split; [split; [intros H; try discriminate H; auto
                    |intros (H1 & H2 & H3); try discriminate; try contradiction;
                     reflexivity]
            |split; [intros H1 H2 H3; try discriminate; try contradiction;
                     reflexivity
                    |intros H; try discriminate H; reflexivity]]).
Qed.

Lemma seizure_fail_rate_division_by_zero_witness :
  exists bs self w,
    fill 4 six_rows = Ok (bs, self, w)
    /\ seizure_fail_rate self w 2 (-2) = Raise ZeroDivisionError
    /\ seizure_fail_rate self w 0 (-1) = Ok (F64.div (F64.of_Z 4294967295) (F64.of_Z 3))
    /\ seizure_fail_rate self w 4 4 = Raise IndexError.
Proof.
  eexists _, _, (mkWorld _ _). split; [vm_compute; reflexivity|].
  match goal with
  | |- seizure_fail_rate ?s ?w _ _ = _ /\ _ =>
      pose proof (seizure_fail_rate_division_by_zero s w 2 (-2)) as (H1 & _ & _);
      pose proof (seizure_fail_rate_division_by_zero s w 0 (-1)) as (_ & H2 & _);
      pose proof (seizure_fail_rate_division_by_zero s w 4 4) as (_ & _ & H3)
  end.
  split; [apply H1; vm_compute; auto|].
  split; [apply H2; vm_compute; congruence|].
  apply H3; vm_compute; reflexivity.
Defined.

(** C8, as stated, fails: after five inserts into a buffer of capacity 4
    with failed-call counts 0, 0, 0, 0, 2, the indices 3 and 0 are valid and
    different, [sfr = 2 / -3], and [asr + sfr] is [1 - 2^-53], not [1.0]. *)
Lemma asr_plus_sfr_not_one :
  exists bs self w a x,
    fill 4 five_rows = Ok (bs, self, w)
    /\ answer_seizure_ratio self w 3 0 = Ok a
    /\ seizure_fail_rate self w 3 0 = Ok x
    /\ F64.add a x = S754_finite false 9007199254740991 (-53)
    /\ F64.eqb (F64.add a x) F64.one = false.
Proof.
  eexists _, _, _, _, _. split; [vm_compute; reflexivity|].
  split; [vm_compute; reflexivity|].
  split; [vm_compute; reflexivity|].
  split; vm_compute; reflexivity.
Qed.

(** C8, amended: [answer_seizure_ratio] is [1 - seizure_fail_rate] computed
    in binary64, and raises what [seizure_fail_rate] raises.  Over every
    forward window ([start] before the normalized end) the sum [asr + sfr]
    is exactly [1.0]: there the rate is not negative and below [2^32], so
    either [1 - sfr] is exact or the sum rounds back to 1.  Over a reverse
    window the rate is negative and the sum can miss 1 by one rounding. *)
Theorem answer_seizure_ratio_complement
    (self : CappedArray) (w : World) (start end_ : Z) :
  let array := column num_failed_calls self w in
  let end' := normalized_end (length array) end_ in
  answer_seizure_ratio self w start end_
    = match seizure_fail_rate self w start end_ with
      | Ok sfr => Ok (F64.sub F64.one sfr)
      | Raise e => Raise e
      end
  /\ (forall asr sfr,
        answer_seizure_ratio self w start end_ = Ok asr ->
        seizure_fail_rate self w start end_ = Ok sfr ->
        start < end' ->
        F64.add asr sfr = F64.one
        /\ F64.eqb (F64.add asr sfr) F64.one = true).
Proof.
  intros array end'. split; [reflexivity|].
  intros asr sfr Ha Hx Hd.
  unfold answer_seizure_ratio in Ha. rewrite Hx in Ha. cbn [bind] in Ha.
  injection Ha as <-.
  rewrite seizure_fail_rate_eq in Hx. unfold seizure_fail_rate_cases in Hx.
  fold array end' in Hx.
  destruct (in_range (length array) end' && in_range (length array) start);
    [|discriminate Hx].
  destruct (Z.eqb_spec start end'); [discriminate Hx|].
  injection Hx as <-.
  assert (E : F64.add
                (F64.sub F64.one
                   (F64.div (F64.of_Z (uint32 (item array end' - item array start)))
                            (F64.of_Z (end' - start))))
                (F64.div (F64.of_Z (uint32 (item array end' - item array start)))
                         (F64.of_Z (end' - start))) = F64.one).
  { apply complement_forward; [|lia]. unfold uint32. apply Z.mod_pos_bound. lia. }
  split; [exact E|].
  apply (f_equal (fun v => F64.eqb v F64.one)) in E. exact E.
Qed.

Lemma answer_seizure_ratio_complement_witness :
  let self := mkCappedArray (window 4) 4 in
  let w := mkWorld [row_with F64.zero 0; row_with F64.zero 0;
                    row_with F64.zero 1; row_with F64.zero 1] (window 4) in
  let third := F64.div (F64.of_Z 1) (F64.of_Z 3) in
  seizure_fail_rate self w 0 3 = Ok third
  /\ answer_seizure_ratio self w 0 3 = Ok (F64.sub F64.one third)
  /\ third = S754_finite false 6004799503160661 (-54)
  /\ F64.eqb (F64.add (F64.sub F64.one third) third) F64.one = true.
Proof.
  intros self w third.
  assert (Hx : seizure_fail_rate self w 0 3 = Ok third)
    by (vm_compute; reflexivity).
  assert (Ha : answer_seizure_ratio self w 0 3 = Ok (F64.sub F64.one third))
    by (vm_compute; reflexivity).
  split; [exact Hx|]. split; [exact Ha|]. split; [vm_compute; reflexivity|].
  apply (proj2 (answer_seizure_ratio_complement self w 0 3)
               (F64.sub F64.one third) third Ha Hx).
  vm_compute. reflexivity.
Defined.

(** ** [moving_avg] *)

Lemma cumsum_from_length (x : list f64) :
  forall acc, length (cumsum_from acc x) = length x.
Proof. induction x as [|v x IH]; intros acc; simpl; auto. Qed.

Lemma cumsum_length (x : list f64) : length (cumsum x) = length x.
Proof. destruct x; simpl; auto using cumsum_from_length. Qed.

Lemma map2_length {A B C : Type} (f : A -> B -> C) (a : list A) :
  forall b, length (map2 f a b) = Nat.min (length a) (length b).
Proof. induction a as [|x a IH]; intros [|y b]; simpl; auto. Qed.

Lemma nth_error_map2 {A B C : Type} (f : A -> B -> C) (a : list A) :
  forall (b : list B) (i : nat),
    nth_error (map2 f a b) i =
      match nth_error a i, nth_error b i with
      | Some x, Some y => Some (f x y)
      | _, _ => None
      end.
Proof.
  induction a as [|x a IH]; intros [|y b] [|i]; simpl; auto.
  - destruct (nth_error a i); reflexivity.
Qed.

Lemma map2_firstn {A B C : Type} (f : A -> B -> C) (a : list A) (b : list B) :
  map2 f a (firstn (length a) b) = map2 f a b.
Proof.
  revert b; induction a as [|x a IH]; intros [|y b]; simpl; auto.
  rewrite IH. reflexivity.
Qed.

Lemma broadcast2_same_length {A : Type} (f : A -> A -> A) (a b : list A) :
  length a = length b -> broadcast2 f a b = Ok (map2 f a b).
Proof. intros H. unfold broadcast2. rewrite H, Nat.eqb_refl. reflexivity. Qed.

Lemma moving_avg_eq (x : list f64) (n : Z) :
  0 < n ->
  moving_avg x n = Ok (windowed_average x (Z.min (Z.of_nat (length x)) n)).
Proof.
  intros Hn. unfold moving_avg, windowed_average.
  set (n' := Z.min (Z.of_nat (length x)) n).
  set (cs := cumsum x).
  assert (Hcs : length cs = length x) by apply cumsum_length.
  set (k := Z.to_nat n').
  assert (Hk : (k <= length x)%nat) by (unfold k, n'; lia).
  assert (Hfrom : slice_from cs n' = skipn k cs).
  { unfold slice_from, slice_bound. rewrite Hcs.
    destruct (Z.ltb_spec n' 0); [unfold n' in *; lia|].
    f_equal. fold k. lia. }
  assert (Hupto : slice_upto cs (- n') = firstn (length x - k) cs).
  { unfold slice_upto, slice_bound. rewrite Hcs.
    destruct (Z.ltb_spec (- n') 0).
    - f_equal. unfold k. lia.
    - assert (n' = 0) by (unfold n' in *; lia).
      f_equal. unfold k. lia. }
  rewrite Hfrom, Hupto.
  rewrite broadcast2_same_length
    by (rewrite length_skipn, length_firstn; lia).
  cbn [bind].
  replace (length x - k)%nat with (length (skipn k cs))
    by (rewrite length_skipn; lia).
  rewrite map2_firstn.
  unfold setslice_from, slice_bound. rewrite Hcs.
  destruct (Z.ltb_spec n' 0); [unfold n' in *; lia|].
  fold k. replace (Nat.min (length x) k) with k by lia.
  rewrite map2_length, length_skipn, Hcs.
  replace (Nat.min (length x - k) (length x)) with (length x - k)%nat by lia.
  rewrite Nat.eqb_refl. cbn [bind]. f_equal.
  apply nth_error_ext. intros i.
  rewrite !nth_error_map, nth_error_seq.
  destruct (Nat.ltb_spec i (length x)) as [Hi|Hi]; cbn [option_map Nat.add].
  - destruct (Nat.lt_ge_cases i k) as [Hik|Hik].
    + rewrite nth_error_app1 by (rewrite length_firstn; lia).
      rewrite nth_error_firstn.
      destruct (Nat.ltb_spec i k); [|lia].
      rewrite (nth_error_nth' cs F64.zero) by lia. cbn [option_map].
      destruct (Z.leb_spec n' (Z.of_nat i)); [unfold k in *; lia|reflexivity].
    + rewrite nth_error_app2 by (rewrite length_firstn; lia).
      rewrite length_firstn, Hcs.
      replace (Nat.min k (length x)) with k by lia.
      rewrite nth_error_map2, nth_error_skipn.
      replace (k + (i - k))%nat with i by lia.
      rewrite (nth_error_nth' cs F64.zero) by lia.
      rewrite (nth_error_nth' cs F64.zero) by lia.
      cbn [option_map].
      destruct (Z.leb_spec n' (Z.of_nat i)); [reflexivity|unfold k in *; lia].
  - rewrite (proj2 (nth_error_None _ _)); [reflexivity|].
    rewrite length_app, length_firstn, map2_length, length_skipn, Hcs. lia.
Qed.

Lemma windowed_average_length (x : list f64) (n : Z) :
  length (windowed_average x n) = length x.
Proof. unfold windowed_average. rewrite length_map, length_seq. reflexivity. Qed.

(** C6, as stated, fails: on a series shorter than the window the divisor
    is the length of the series, not [n]: for [x = [1; 2; 3]] and [n = 100]
    the result is [[1/3; 1; 2]], not [[1/100; 3/100; 6/100]]. *)
Lemma moving_avg_short_series_divisor :
  moving_avg (map F64.of_Z [1; 2; 3]) 100
    = Ok [F64.div (F64.of_Z 1) (F64.of_Z 3); F64.of_Z 1; F64.of_Z 2]
  /\ moving_avg (map F64.of_Z [1; 2; 3]) 100
       <> Ok (windowed_average (map F64.of_Z [1; 2; 3]) 100).
Proof. split; vm_compute; [reflexivity|discriminate]. Qed.

(** C6, amended: for a window length [n > 0], [moving_avg] returns a series
    of the same length computed with the window length
    [n' = min (length x) n]: item [i] is [(cs[i] - cs[i-n']) / n'] for
    [i >= n'] and [cs[i] / n'] for [i < n'] (so the divisor is [n] whenever
    the series has at least [n] items), and [wm_rate] is this average of
    [inst_rate] with [n = 100]. *)
Theorem moving_avg_windowed (x : list f64) (n : Z) :
  0 < n ->
  let n' := Z.min (Z.of_nat (length x)) n in
  moving_avg x n = Ok (windowed_average x n')
  /\ length (windowed_average x n') = length x
  /\ (n <= Z.of_nat (length x) -> n' = n)
  /\ (forall i, (i < length x)%nat ->
        nth_error (windowed_average x n') i =
          Some (F64.div
                  (if n' <=? Z.of_nat i
                   then F64.sub (nth i (cumsum x) F64.zero)
                                (nth (i - Z.to_nat n') (cumsum x) F64.zero)
                   else nth i (cumsum x) F64.zero)
                  (F64.of_Z n')))
  /\ (forall sort self w rates w',
        inst_rate sort self w = Ok (rates, w') ->
        wm_rate sort self w
          = Ok (windowed_average rates (Z.min (Z.of_nat (length rates)) 100), w')).
Proof.
  intros Hn n'. split; [apply moving_avg_eq, Hn|].
  split; [apply windowed_average_length|].
  split; [unfold n'; lia|]. split.
  - intros i Hi. unfold windowed_average.
    rewrite nth_error_map, nth_error_seq.
    destruct (Nat.ltb_spec i (length x)); [reflexivity|lia].
  - intros sort self w rates w' E. unfold wm_rate. rewrite E. cbn [bind].
    rewrite moving_avg_eq by lia. reflexivity.
Qed.

Lemma moving_avg_windowed_witness :
  moving_avg (map F64.of_Z [1; 2; 3; 4; 5]) 2
    = Ok (windowed_average (map F64.of_Z [1; 2; 3; 4; 5]) 2).
Proof.
  apply (moving_avg_windowed (map F64.of_Z [1; 2; 3; 4; 5]) 2). lia.
Defined.

(** ** Sorting *)

Lemma sort_insert_perm (x : Row) (l : list Row) :
  Permutation (sort_insert x l) (x :: l).
Proof.
  induction l as [|y l IH]; simpl; [reflexivity|].
  destruct (row_lt y x); [|reflexivity].
  rewrite IH. apply perm_swap.
Qed.

Lemma insertion_sort_perm (l : list Row) : Permutation (insertion_sort l) l.
Proof.
  induction l as [|x l IH]; simpl; [reflexivity|].
  rewrite sort_insert_perm. apply perm_skip, IH.
Qed.

Lemma DOUBLE_LT_asym (a b : f64) :
  DOUBLE_LT a b = true -> DOUBLE_LT b a = false.
Proof.
  unfold DOUBLE_LT, F64.ltb, SFltb. rewrite (SFcompare_antisym a b).
  destruct a, b; simpl; try discriminate; try reflexivity;
    match goal with
    | |- context [match ?c with _ => _ end] =>
        destruct c; simpl; try discriminate; try reflexivity
    end;
    repeat match goal with
    | |- context [match ?c with _ => _ end] =>
        destruct c; simpl; try discriminate; try reflexivity
    end.
Qed.

Lemma DOUBLE_compare_antisym (a b : f64) :
  DOUBLE_compare b a = CompOpp (DOUBLE_compare a b).
Proof.
  unfold DOUBLE_compare.
  destruct (DOUBLE_LT a b) eqn:E1.
  - rewrite (DOUBLE_LT_asym _ _ E1). reflexivity.
  - destruct (DOUBLE_LT b a); reflexivity.
Qed.

Lemma lexi_antisym (c k c' k' : comparison) :
  c' = CompOpp c -> k' = CompOpp k -> lexi c' k' = CompOpp (lexi c k).
Proof. intros -> ->. destruct c; reflexivity. Qed.

Lemma VOID_compare_antisym (a b : Row) :
  VOID_compare b a = CompOpp (VOID_compare a b).
Proof.
  unfold VOID_compare.
  repeat (apply lexi_antisym; [apply DOUBLE_compare_antisym|]).
  apply lexi_antisym; apply Z.compare_antisym.
Qed.

Lemma row_lt_asym (a b : Row) : row_lt a b = true -> row_lt b a = false.
Proof.
  unfold row_lt. rewrite (VOID_compare_antisym a b).
  destruct (VOID_compare a b); simpl; congruence.
Qed.

Lemma sort_insert_ascending (x : Row) (l : list Row) :
  ascending l -> ascending (sort_insert x l).
Proof.
  induction l as [|y l IH]; intros Hl; [exact I|].
  cbn [sort_insert]. destruct (row_lt y x) eqn:E.
  - destruct l as [|z l].
    + cbn. split; [apply row_lt_asym, E|exact I].
    + cbn [sort_insert] in *. destruct Hl as [Hzy Hl].
      specialize (IH Hl).
      destruct (row_lt z x) eqn:E2.
      * split; [exact Hzy|exact IH].
      * split; [apply row_lt_asym, E|exact IH].
  - split; [exact E|exact Hl].
Qed.

Lemma insertion_sort_ascending (l : list Row) : ascending (insertion_sort l).
Proof.
  induction l as [|x l IH]; [exact I|]. apply sort_insert_ascending, IH.
Qed.

(** The contract can be met: sorting by insertion meets it. *)
Lemma insertion_sort_contract : sort_contract insertion_sort.
Proof.
  intros l. split; [apply insertion_sort_perm|apply insertion_sort_ascending].
Qed.

Lemma sort_perm (sort : list Row -> list Row) (l : list Row) :
  sort_contract sort -> Permutation (sort l) l.
Proof. intros H. apply H. Qed.

Lemma sort_ascending (sort : list Row -> list Row) (l : list Row) :
  sort_contract sort -> ascending (sort l).
Proof. intros H. apply H. Qed.

Lemma sort_length (sort : list Row -> list Row) (l : list Row) :
  sort_contract sort -> length (sort l) = length l.
Proof. intros H. apply Permutation_length, H. Qed.

(** ** The order of the sort on times *)

Lemma DOUBLE_LT_key (x y : f64) :
  DOUBLE_LT x y = true <-> lex_lt (key x) (key y).
Proof.
  unfold DOUBLE_LT, F64.ltb, SFltb.
  destruct x as [sx|sx| |sx mx ex], y as [sy|sy| |sy my ey];
    try destruct sx; try destruct sy;
    cbn [SFcompare key lex_lt F64.is_nan negb andb orb];
    try (split; [intros H; try discriminate H; lia|intros H; try reflexivity; lia]).
  - rewrite Pos.compare_cont_spec. cbn [Pos.switch_Eq].
    destruct (Z.compare_spec ex ey), (Pos.compare_spec mx my);
      cbn [CompOpp orb]; split; intros Hlt; try discriminate Hlt;
      try reflexivity; lia.
  - rewrite Pos.compare_cont_spec. cbn [Pos.switch_Eq].
    destruct (Z.compare_spec ex ey), (Pos.compare_spec mx my);
      cbn [CompOpp orb]; split; intros Hlt; try discriminate Hlt;
      try reflexivity; lia.
Qed.

Lemma DOUBLE_LT_false_key (x y : f64) :
  DOUBLE_LT x y = false <-> ~ lex_lt (key x) (key y).
Proof.
  rewrite <- DOUBLE_LT_key. destruct (DOUBLE_LT x y); split; congruence.
Qed.

(** [a <= b] and [b <= c] give [a <= c], where [x <= y] reads "[y] does not
    sort before [x]". *)
Lemma DOUBLE_LT_chain (a b c : f64) :
  DOUBLE_LT b a = false -> DOUBLE_LT c b = false -> DOUBLE_LT c a = false.
Proof.
  rewrite !DOUBLE_LT_false_key. unfold lex_lt.
  destruct (key a) as [[a1 a2] a3], (key b) as [[b1 b2] b3],
    (key c) as [[c1 c2] c3]. lia.
Qed.

Lemma DOUBLE_LT_refl_false (a : f64) : DOUBLE_LT a a = false.
Proof.
  rewrite DOUBLE_LT_false_key. unfold lex_lt.
  destruct (key a) as [[a1 a2] a3]. lia.
Qed.

Lemma DOUBLE_LT_trans (a b c : f64) :
  DOUBLE_LT a b = true -> DOUBLE_LT b c = true -> DOUBLE_LT a c = true.
Proof.
  rewrite !DOUBLE_LT_key. unfold lex_lt.
  destruct (key a) as [[a1 a2] a3], (key b) as [[b1 b2] b3],
    (key c) as [[c1 c2] c3]. lia.
Qed.

(** Two times that sort together, one of them finite, are the same number
    or two zeros. *)
Lemma sorts_together_finite (y t : f64) :
  F64.is_finite t = true ->
  DOUBLE_LT y t = false -> DOUBLE_LT t y = false ->
  y = t \/ exists sy st, y = S754_zero sy /\ t = S754_zero st.
Proof.
  intros Hfin. rewrite !DOUBLE_LT_false_key. unfold lex_lt.
  destruct t as [st|st| |st mt et]; try discriminate Hfin;
    destruct y as [sy|sy| |sy my ey];
    try destruct st; try destruct sy; cbn [key]; intros H1 H2;
    try (exfalso; lia); try (right; eexists _, _; split; reflexivity).
  - left. assert (ey = et) by lia. assert (Zpos my = Zpos mt) by lia.
    congruence.
  - left. assert (ey = et) by lia. assert (Zpos my = Zpos mt) by lia.
    congruence.
Qed.

Lemma row_lt_time_false (a b : Row) :
  row_lt b a = false -> DOUBLE_LT (time b) (time a) = false.
Proof.
  unfold row_lt, VOID_compare, DOUBLE_compare at 1.
  destruct (DOUBLE_LT (time b) (time a)); [discriminate|reflexivity].
Qed.

Lemma ascending_time (l : list Row) :
  ascending l ->
  forall i, (i + 1 < length l)%nat ->
    DOUBLE_LT (time (nth (i + 1) l zero_row)) (time (nth i l zero_row)) = false.
Proof.
  induction l as [|x l IH]; intros Hl i Hi; cbn [length] in *; [lia|].
  destruct l as [|y l]; cbn [length] in *; [lia|].
  destruct Hl as [Hyx Hl].
  destruct i as [|i].
  - apply row_lt_time_false, Hyx.
  - apply (IH Hl i). cbn [length]. lia.
Qed.

Lemma row_lt_by_time (a b : Row) :
  DOUBLE_compare (time a) (time b) <> Eq ->
  row_lt a b = match DOUBLE_compare (time a) (time b) with
               | Lt => true | _ => false end.
Proof.
  unfold row_lt, VOID_compare.
  destruct (DOUBLE_compare (time a) (time b)); [congruence| |]; reflexivity.
Qed.

Lemma ascending_no_descent (l : list Row) :
  ascending l -> no_descent (map time l).
Proof.
  induction l as [|x l IH]; intros Hl; [exact I|].
  destruct l as [|y l]; [exact I|].
  destruct Hl as [Hyx Hl]. cbn [map no_descent] in *.
  split; [apply row_lt_time_false, Hyx|apply IH, Hl].
Qed.

Lemma no_descent_head (l : list f64) :
  forall a, no_descent (a :: l) -> forall b, In b l -> DOUBLE_LT b a = false.
Proof.
  induction l as [|c l IH]; intros a H b Hb; [contradiction|].
  destruct H as [Hca H]. destruct Hb as [<-|Hb]; [exact Hca|].
  apply (DOUBLE_LT_chain a c b Hca). apply (IH c H b Hb).
Qed.

Lemma no_descent_app_r (l1 l2 : list f64) :
  no_descent (l1 ++ l2) -> no_descent l2.
Proof.
  induction l1 as [|a l1 IH]; intros H; [exact H|].
  apply IH. cbn [app] in H.
  destruct (l1 ++ l2); [exact I|]. apply H.
Qed.

Lemma ascending_tail (x : Row) (l : list Row) : ascending (x :: l) -> ascending l.
Proof. destruct l as [|y l]; [intros _; exact I|intros [_ H]; exact H]. Qed.

Lemma increasing_times_tail (x : Row) (l : list Row) :
  increasing_times (x :: l) -> increasing_times l.
Proof. destruct l as [|y l]; [intros _; exact I|intros [_ H]; exact H]. Qed.

Lemma increasing_times_head (l : list Row) :
  forall x, increasing_times (x :: l) ->
    forall y, In y l -> DOUBLE_LT (time x) (time y) = true.
Proof.
  induction l as [|z l IH]; intros x H y Hy; [contradiction|].
  destruct H as [Hxz H]. destruct Hy as [<-|Hy]; [exact Hxz|].
  apply (DOUBLE_LT_trans _ (time z)); [exact Hxz|]. apply (IH z H y Hy).
Qed.

(** Rows whose times strictly increase have one ascending arrangement only:
    whatever the sort does with rows that compare equal, it returns such
    rows in the order of their times. *)
Lemma ascending_perm_increasing (l' : list Row) :
  increasing_times l' ->
  forall l, Permutation l l' -> ascending l -> l = l'.
Proof.
  induction l' as [|x l' IH]; intros Hinc l P Hasc.
  - apply Permutation_nil. symmetry. exact P.
  - destruct l as [|a l].
    + apply Permutation_nil in P. discriminate P.
    + assert (E : a = x).
      { assert (Ha : In a (x :: l'))
          by (apply (Permutation_in _ P); left; reflexivity).
        destruct Ha as [E|Ha]; [symmetry; exact E|]. exfalso.
        pose proof (increasing_times_head l' x Hinc a Ha) as Hlt.
        assert (Hx : In x (a :: l))
          by (apply (Permutation_in _ (Permutation_sym P)); left; reflexivity).
        destruct Hx as [E|Hx].
        - subst a. rewrite DOUBLE_LT_refl_false in Hlt. discriminate Hlt.
        - pose proof (no_descent_head (map time l) (time a)
                        (ascending_no_descent (a :: l) Hasc)
                        (time x) (in_map time _ _ Hx)) as Hge.
          congruence. }
      subst a. f_equal. apply IH.
      * apply (increasing_times_tail x), Hinc.
      * apply (Permutation_cons_inv P).
      * apply (ascending_tail x), Hasc.
Qed.

Lemma sort_to_increasing (sort : list Row -> list Row) (l l' : list Row) :
  sort_contract sort -> Permutation l l' -> increasing_times l' -> sort l = l'.
Proof.
  intros H P Hinc. apply (ascending_perm_increasing l' Hinc).
  - transitivity l; [apply H|exact P].
  - apply H.
Qed.

Lemma sort_increasing (sort : list Row -> list Row) (l : list Row) :
  sort_contract sort -> increasing_times l -> sort l = l.
Proof. intros H Hinc. apply (sort_to_increasing sort l l H); [reflexivity|exact Hinc]. Qed.

(** ** [inst_rate] *)

Lemma view_rows (self : CappedArray) (w : World) :
  rows (_view self w) = Nat.min (Nat.min (rows (_buf self)) (length (mem w))) (_mi self).
Proof. unfold _view, view_upto. cbn [rows]. rewrite size_window. reflexivity. Qed.

Lemma items_length (w : World) (a : ndarray) :
  length (items w a) = Nat.min (rows a) (length (mem w)).
Proof. apply size_window. Qed.

(** [inst_rate] never raises; it returns the capped rates of the sorted
    times and leaves the sorted rows in the buffer. *)
Lemma inst_rate_eq (sort : list Row -> list Row) (self : CappedArray) (w : World) :
  sort_contract sort ->
  let v := _view self w in
  let sorted := sort (items w v) in
  inst_rate sort self w
  = Ok (map rate_of (deltas (map time sorted)),
        mkWorld (sorted ++ skipn (rows v) (mem w)) v).
Proof.
  intros Hsort v sorted. unfold inst_rate, view, __init__.
  cbv beta iota zeta. change (_view self w) with v.
  set (w1 := mkWorld (mem w) v).
  assert (Hn : (rows v <= length (mem w))%nat)
    by (unfold v; rewrite view_rows; lia).
  assert (Hmi : (rows v <= _mi self)%nat)
    by (unfold v; rewrite view_rows; lia).
  assert (Hv1 : _view (mkCappedArray v (_mi self)) w1 = v).
  { unfold _view, view_upto. cbn [_buf _mi]. rewrite size_window.
    cbn [mem w1]. destruct v as [n]. cbn [rows] in *. f_equal. lia. }
  rewrite Hv1.
  assert (Hitems : items w1 v = items w v) by reflexivity.
  unfold sort_in_place. rewrite Hitems. fold sorted.
  clear Hv1 Hitems. subst w1. cbn [mem cls_getitem].
  set (mem2 := sorted ++ skipn (rows v) (mem w)).
  assert (Hsorted : length sorted = rows v).
  { unfold sorted. rewrite (sort_length sort _ Hsort), items_length. lia. }
  assert (Hlen2 : length mem2 = length (mem w)).
  { unfold mem2. rewrite length_app, length_skipn. lia. }
  assert (Hv2 : _view self (mkWorld mem2 v) = v).
  { unfold _view, view_upto. rewrite size_window. cbn [mem].
    rewrite Hlen2. unfold v, _view, view_upto.
    rewrite size_window. reflexivity. }
  rewrite Hv2. cbn [mem cls_getitem].
  assert (Hcol : getitem_column time (mkWorld mem2 v) = map time sorted).
  { unfold getitem_column, items. cbn [cls_getitem mem]. unfold mem2.
    rewrite firstn_app, Hsorted, Nat.sub_diag, firstn_O, app_nil_r.
    rewrite firstn_all2 by lia. reflexivity. }
  rewrite Hcol.
  set (ts := map time sorted).
  assert (Hts : length ts = rows v) by (unfold ts; rewrite length_map; exact Hsorted).
  assert (H1 : slice_from ts 1 = tl ts).
  { unfold slice_from, slice_bound. cbn [Z.ltb Z.compare].
    change (Z.to_nat 1) with 1%nat.
    destruct ts as [|t ts']; [reflexivity|]. cbn [length].
    replace (Nat.min (S (length ts')) 1) with 1%nat by lia. reflexivity. }
  assert (H0 : slice_upto ts (-1) = firstn (length (tl ts)) ts).
  { unfold slice_upto, slice_bound. cbn [Z.ltb Z.compare]. f_equal.
    destruct ts as [|t ts']; cbn [length tl]; lia. }
  rewrite H1, H0.
  rewrite broadcast2_same_length.
  2:{ rewrite length_firstn. destruct ts; cbn [length tl]; lia. }
  cbn [bind]. rewrite map2_firstn, map_map. reflexivity.
Qed.

Lemma sorted_world_view (self : CappedArray) (w : World) (sorted : list Row) :
  let v := _view self w in
  let w' := mkWorld (sorted ++ skipn (rows v) (mem w)) v in
  length sorted = length (items w v) ->
  _view self w' = v
  /\ items w' v = sorted
  /\ length (mem w') = length (mem w).
Proof.
  intros v w' Hlength.
  assert (Hn : (rows v <= length (mem w))%nat)
    by (unfold v; rewrite view_rows; lia).
  assert (Hsorted : length sorted = rows v)
    by (rewrite Hlength, items_length; lia).
  assert (Hlen : length (mem w') = length (mem w)).
  { unfold w'. cbn [mem]. rewrite length_app, length_skipn. lia. }
  split; [|split; [|exact Hlen]].
  - unfold _view, view_upto. rewrite size_window, Hlen.
    unfold v, _view, view_upto. rewrite size_window. reflexivity.
  - unfold items at 1. unfold w'. cbn [mem].
    rewrite firstn_app, Hsorted, Nat.sub_diag, firstn_O, app_nil_r.
    apply firstn_all2. lia.
Qed.

(** What [inst_rate] does on a buffer filled with rows that have one
    ascending arrangement, [sorted]. *)
Lemma inst_rate_on_distinct_times
    (sort : list Row -> list Row) (self : CappedArray) (w : World)
    (sorted : list Row) :
  sort_contract sort ->
  Permutation (items w (_view self w)) sorted ->
  increasing_times sorted ->
  inst_rate sort self w
  = Ok (map rate_of (deltas (map time sorted)),
        mkWorld (sorted ++ skipn (rows (_view self w)) (mem w)) (_view self w)).
Proof.
  intros Hsort P Hinc. rewrite (inst_rate_eq sort self w Hsort).
  rewrite (sort_to_increasing sort _ sorted Hsort P Hinc). reflexivity.
Qed.

(** C1, as stated, fails: with two rows inserted at times 2.0 and 1.0,
    reading the [time] column after [inst_rate] gives [1.0; 2.0] where it
    gave [2.0; 1.0] before, and the stored rows have changed places,
    whatever the sort does with rows that compare equal. *)
Lemma inst_rate_reorders_buffer :
  exists bs self w,
    fill 2 [row_with (F64.of_Z 2) 0; row_with (F64.of_Z 1) 1] = Ok (bs, self, w)
    /\ column time self w = [F64.of_Z 2; F64.of_Z 1]
    /\ column num_failed_calls self w = [0; 1]
    /\ forall sort, sort_contract sort ->
         exists rates w',
           inst_rate sort self w = Ok (rates, w')
           /\ column time self w' = [F64.of_Z 1; F64.of_Z 2]
           /\ column num_failed_calls self w' = [1; 0]
           /\ mem w' <> mem w.
Proof.
  eexists _, (mkCappedArray (window 2) 2), (mkWorld _ (window 2)).
  split; [vm_compute; reflexivity|].
  split; [vm_compute; reflexivity|].
  split; [vm_compute; reflexivity|].
  intros sort Hsort.
  rewrite (inst_rate_on_distinct_times sort _ _
             [row_with (F64.of_Z 1) 1; row_with (F64.of_Z 2) 0] Hsort).
  - eexists _, _. split; [reflexivity|].
    repeat split; vm_compute; try reflexivity. discriminate.
  - apply perm_swap.
  - vm_compute. split; [reflexivity|exact I].
Qed.

(** C1, amended: [inst_rate] sorts the rows of the buffer's view in place,
    through the numpy view it takes: afterwards the first
    [min (_mi, capacity)] slots hold the same rows in ascending order of
    [time] (rows that compare equal in whatever order the sort leaves them),
    the slots behind them are unchanged, and a column read after
    [inst_rate] is the column of the sorted rows, a permutation of the
    column read before. *)
Theorem inst_rate_sorts_in_place
    (sort : list Row -> list Row) (self : CappedArray) (w : World) :
  sort_contract sort ->
  let v := _view self w in
  exists rates w',
    inst_rate sort self w = Ok (rates, w')
    /\ mem w' = items w' v ++ skipn (rows v) (mem w)
    /\ _view self w' = v
    /\ ascending (items w' v)
    /\ Permutation (items w' v) (items w v)
    /\ length (mem w') = length (mem w)
    /\ (forall j, (rows v <= j)%nat -> nth_error (mem w') j = nth_error (mem w) j)
    /\ (forall (A : Type) (field : Row -> A),
          column field self w' = map field (items w' v)
          /\ Permutation (column field self w') (column field self w)).
Proof.
  intros Hsort v. rewrite (inst_rate_eq sort self w Hsort). fold v.
  eexists _, _. split; [reflexivity|].
  destruct (sorted_world_view self w (sort (items w v)))
    as (Hv & Hitems & Hlen); [apply sort_length, Hsort|].
  fold v in Hv, Hitems, Hlen.
  set (w' := mkWorld _ v) in *.
  assert (Hn : (rows v <= length (mem w))%nat)
    by (unfold v; rewrite view_rows; lia).
  assert (Hsl : length (sort (items w v)) = rows v)
    by (rewrite (sort_length sort _ Hsort), items_length; lia).
  split; [rewrite Hitems; reflexivity|]. split; [exact Hv|].
  split; [rewrite Hitems; apply sort_ascending, Hsort|].
  split; [rewrite Hitems; apply sort_perm, Hsort|].
  split; [exact Hlen|]. split.
  - intros j Hj. unfold w'. cbn [mem].
    rewrite nth_error_app2 by lia.
    rewrite Hsl, nth_error_skipn.
    f_equal. lia.
  - intros A field. unfold column. rewrite Hv.
    split; [reflexivity|]. rewrite Hitems.
    apply Permutation_map, sort_perm, Hsort.
Qed.

Lemma inst_rate_sorts_in_place_witness :
  exists rates w',
    inst_rate insertion_sort (mkCappedArray (window 2) 2)
              (mkWorld [row_with (F64.of_Z 2) 0; row_with (F64.of_Z 1) 1]
                       (window 2))
      = Ok (rates, w')
    /\ ascending (items w' (window 2))
    /\ Permutation (items w' (window 2))
                   [row_with (F64.of_Z 2) 0; row_with (F64.of_Z 1) 1].
Proof.
  destruct (inst_rate_sorts_in_place insertion_sort
              (mkCappedArray (window 2) 2)
              (mkWorld [row_with (F64.of_Z 2) 0; row_with (F64.of_Z 1) 1]
                       (window 2))
              insertion_sort_contract)
    as (rates & w' & E & _ & _ & Hasc & Hperm & _).
  exists rates, w'. split; [exact E|]. split; [exact Hasc|exact Hperm].
Defined.

(** ** [insert] after [inst_rate] *)

(** C9, as stated, fails: [insert] does not always overwrite the oldest
    row.  With capacity 2 and two records inserted at times 3.0 and 1.0,
    [inst_rate] leaves the buffer sorted, the newer record first; the next
    [insert] writes slot [2 mod 2 = 0], over the newer record, and the
    oldest one stays in the buffer. *)
Lemma insert_after_sort_keeps_oldest :
  exists bs self w,
    fill 2 [row_with (F64.of_Z 3) 0; row_with (F64.of_Z 1) 1] = Ok (bs, self, w)
    /\ mem w = [row_with (F64.of_Z 3) 0; row_with (F64.of_Z 1) 1]
    /\ forall sort, sort_contract sort ->
         exists rates w1 b self' w2,
           inst_rate sort self w = Ok (rates, w1)
           /\ insert self (row_with (F64.of_Z 5) 2) w1 = Ok (b, self', w2)
           /\ mem w2 = [row_with (F64.of_Z 5) 2; row_with (F64.of_Z 3) 0].
Proof.
  eexists _, (mkCappedArray (window 2) 2), (mkWorld _ (window 2)).
  split; [vm_compute; reflexivity|].
  split; [vm_compute; reflexivity|].
  intros sort Hsort.
  rewrite (inst_rate_on_distinct_times sort _ _
             [row_with (F64.of_Z 1) 1; row_with (F64.of_Z 3) 0] Hsort).
  - eexists _, _, _, _, _. split; [reflexivity|].
    split; [vm_compute; reflexivity|]. vm_compute. reflexivity.
  - apply perm_swap.
  - vm_compute. split; [reflexivity|exact I].
Qed.

(** ** The rates of [inst_rate] *)

Lemma deltas_length (t : list f64) : length (deltas t) = (length t - 1)%nat.
Proof.
  unfold deltas. rewrite map2_length.
  destruct t; cbn [tl length]; lia.
Qed.

Lemma deltas_nth (t : list f64) (i : nat) :
  (i + 1 < length t)%nat ->
  nth_error (deltas t) i
  = Some (F64.sub (nth (i + 1) t F64.zero) (nth i t F64.zero)).
Proof.
  intros Hi. unfold deltas. rewrite nth_error_map2.
  destruct t as [|t0 t]; cbn [length tl] in *; [lia|].
  rewrite (nth_error_nth' t F64.zero) by lia.
  rewrite (nth_error_nth' (t0 :: t) F64.zero) by (cbn [length]; lia).
  replace (i + 1)%nat with (S i) by lia. reflexivity.
Qed.

Lemma map2_In {A B C : Type} (f : A -> B -> C) (a : list A) :
  forall (b : list B) (z : C),
    In z (map2 f a b) -> exists x y, In x a /\ In y b /\ z = f x y.
Proof.
  induction a as [|x a IH]; intros [|y b] z H; cbn [map2] in H;
    try contradiction.
  destruct H as [<-|H].
  - exists x, y. cbn. auto.
  - destruct (IH b z H) as (x' & y' & Hx & Hy & E).
    exists x', y'. cbn. auto.
Qed.

Lemma deltas_In (t : list f64) (d : f64) :
  In d (deltas t) -> exists a b, In a t /\ In b t /\ d = F64.sub b a.
Proof.
  intros H. apply map2_In in H as (b & a & Hb & Ha & E).
  exists a, b. repeat split; auto.
  destruct t; [contradiction|]. right. exact Hb.
Qed.

Lemma rate_of_le_300 (d : f64) :
  F64.is_nan d = false -> F64.leb (rate_of d) (F64.of_Z 300) = true.
Proof. intros H. apply bound_rate_le_300, div_one_not_nan, H. Qed.

(** C5, as stated, fails: a row whose time is NaN gives a NaN rate, which
    the cap [rates > 300] leaves in place, and NaN is not [<= 300]. *)
Lemma inst_rate_nan_not_capped :
  exists bs self w,
    fill 2 [row_with F64.nan 0; row_with (F64.of_Z 1) 0] = Ok (bs, self, w)
    /\ F64.leb F64.nan (F64.of_Z 300) = false
    /\ forall sort, sort_contract sort ->
         exists w', inst_rate sort self w = Ok ([F64.nan], w').
Proof.
  eexists _, (mkCappedArray (window 2) 2), (mkWorld _ (window 2)).
  split; [vm_compute; reflexivity|].
  split; [vm_compute; reflexivity|].
  intros sort Hsort.
  rewrite (inst_rate_on_distinct_times sort _ _
             [row_with (F64.of_Z 1) 0; row_with F64.nan 0] Hsort).
  - eexists. reflexivity.
  - apply perm_swap.
  - vm_compute. split; [reflexivity|exact I].
Qed.

(** C5, amended: [inst_rate] never raises and returns [L - 1] values for a
    view of [L] rows (none for [L <= 1]); value [i] is
    [1 / (time[i+1] - time[i])] over the rows sorted by ascending time, as
    the sort leaves them in the buffer, replaced by exactly 300 when it
    exceeds 300; every value is [<= 300] when all times are finite (a NaN or
    infinite time can give a NaN value, which is left as it is).  For
    capacity 8 and four rows with times 0.0, 1.0, 0.5, 2.0 the result is
    [2.0; 2.0; 1.0]. *)
Theorem inst_rate_capped (sort : list Row -> list Row) :
  sort_contract sort ->
  (forall (self : CappedArray) (w : World),
     let v := _view self w in
     let L := size w v in
     exists rates w',
       inst_rate sort self w = Ok (rates, w')
       /\ length rates = (L - 1)%nat
       /\ let sorted := items w' v in
          length sorted = L
          /\ Permutation sorted (items w v)
          /\ ascending sorted
          /\ (forall i, (i + 1 < L)%nat ->
                DOUBLE_LT (time (nth (i + 1) sorted zero_row))
                          (time (nth i sorted zero_row)) = false
                /\ nth_error rates i
                   = Some (bound_rate
                             (F64.div F64.one
                                (F64.sub (time (nth (i + 1) sorted zero_row))
                                         (time (nth i sorted zero_row))))))
          /\ (forall r, bound_rate r
                        = if F64.ltb (F64.of_Z 300) r then F64.of_Z 300 else r)
          /\ ((forall row, In row (items w v) -> F64.is_finite (time row) = true) ->
              forall r, In r rates -> F64.leb r (F64.of_Z 300) = true))
  /\ (forall values : list Row,
        map time values = [F64.of_Z 0; F64.of_Z 1; half; F64.of_Z 2] ->
        exists bs self w w',
          fill 8 values = Ok (bs, self, w)
          /\ inst_rate sort self w = Ok ([F64.of_Z 2; F64.of_Z 2; F64.of_Z 1], w')).
Proof.
  intros Hsort. split.
  - intros self w v L. rewrite (inst_rate_eq sort self w Hsort). fold v.
    destruct (sorted_world_view self w (sort (items w v)))
      as (_ & Hitems & _); [apply sort_length, Hsort|].
    fold v in Hitems.
    eexists _, _. split; [reflexivity|].
    rewrite Hitems. cbv zeta.
    set (sorted := sort (items w v)).
    assert (HL : length sorted = L)
      by (unfold sorted, L, size; apply sort_length, Hsort).
    split; [rewrite length_map, deltas_length, length_map; lia|].
    split; [exact HL|].
    split; [apply sort_perm, Hsort|].
    split; [apply sort_ascending, Hsort|].
    split; [|split; [reflexivity|]].
    + intros i Hi. split.
      * apply ascending_time; [apply sort_ascending, Hsort|lia].
      * rewrite nth_error_map, deltas_nth by (rewrite length_map; lia).
        cbn [option_map]. unfold rate_of.
        change F64.zero with (time zero_row). rewrite !map_nth.
        reflexivity.
    + intros Hfin r Hr.
      apply in_map_iff in Hr as (d & <- & Hd).
      apply deltas_In in Hd as (a & b & Ha & Hb & ->).
      apply rate_of_le_300, sub_finite_not_nan.
      * apply in_map_iff in Hb as (rb & <- & Hb). apply Hfin.
        apply (Permutation_in _ (sort_perm sort _ Hsort)), Hb.
      * apply in_map_iff in Ha as (ra & <- & Ha). apply Hfin.
        apply (Permutation_in _ (sort_perm sort _ Hsort)), Ha.
  - intros values H.
    destruct values as [|r0 [|r1 [|r2 [|r3 [|? ?]]]]]; try discriminate H.
    injection H as H0 H1 H2 H3.
    eexists _, (mkCappedArray (window 8) 4), (mkWorld _ (window 8)), _.
    split; [vm_compute; reflexivity|].
    rewrite (inst_rate_on_distinct_times sort _ _ [r0; r2; r1; r3] Hsort).
    + cbn [map]. rewrite H0, H1, H2, H3. f_equal.
    + cbv [_view view_upto size items _buf _mi rows mem firstn Nat.min length].
      apply perm_skip, perm_swap.
    + cbn [increasing_times]. rewrite H0, H1, H2, H3.
      repeat split; vm_compute; reflexivity.
Qed.

Lemma inst_rate_capped_witness :
  exists bs self w w',
    fill 8 [row_with (F64.of_Z 0) 0; row_with (F64.of_Z 1) 0;
            row_with half 0; row_with (F64.of_Z 2) 0] = Ok (bs, self, w)
    /\ inst_rate insertion_sort self w
       = Ok ([F64.of_Z 2; F64.of_Z 2; F64.of_Z 1], w').
Proof.
  apply (proj2 (inst_rate_capped insertion_sort insertion_sort_contract)).
  reflexivity.
Defined.

(** ** Rows that share a time *)

Lemma nth_error_tl {A : Type} (l : list A) (i : nat) :
  nth_error (tl l) i = nth_error l (S i).
Proof. destruct l; [destruct i|]; reflexivity. Qed.

Lemma deltas_nth_error (t : list f64) (i : nat) :
  nth_error (deltas t) i =
    match nth_error t (S i), nth_error t i with
    | Some b, Some a => Some (F64.sub b a)
    | _, _ => None
    end.
Proof. unfold deltas. rewrite nth_error_map2, nth_error_tl. reflexivity. Qed.

Lemma deltas_app_shift (l1 s : list f64) (i : nat) :
  nth_error (deltas (l1 ++ s)) (length l1 + i) = nth_error (deltas s) i.
Proof.
  rewrite !deltas_nth_error.
  replace (S (length l1 + i)) with (length l1 + S i)%nat by lia.
  rewrite !nth_error_app2 by lia.
  replace (length l1 + S i - length l1)%nat with (S i) by lia.
  replace (length l1 + i - length l1)%nat with i by lia.
  reflexivity.
Qed.

(** In a sorted series that holds a finite time twice, some difference of
    neighbours is exactly [+0]. *)
Lemma zero_delta_exists (l1 l2 l3 : list f64) (t : f64) :
  F64.is_finite t = true ->
  no_descent (l1 ++ t :: l2 ++ t :: l3) ->
  exists i, nth_error (deltas (l1 ++ t :: l2 ++ t :: l3)) i = Some F64.zero.
Proof.
  intros Hfin H. apply no_descent_app_r in H.
  enough (exists i, nth_error (deltas (t :: l2 ++ t :: l3)) i = Some F64.zero)
    as [i Hi]
    by (exists (length l1 + i)%nat; rewrite deltas_app_shift; exact Hi).
  destruct l2 as [|y l2]; cbn [app] in *.
  - exists 0%nat. rewrite deltas_nth_error. cbn [nth_error].
    rewrite sub_diag_finite by exact Hfin. reflexivity.
  - destruct H as [Hyt H].
    assert (Hty : DOUBLE_LT t y = false).
    { apply (no_descent_head _ _ H). apply in_or_app. right. left. reflexivity. }
    destruct (sorts_together_finite y t Hfin Hyt Hty)
      as [->|(sy & st & -> & ->)].
    + exists 0%nat. rewrite deltas_nth_error. cbn [nth_error].
      rewrite sub_diag_finite by exact Hfin. reflexivity.
    + destruct sy, st;
        try (exists 0%nat; rewrite deltas_nth_error; reflexivity).
      (* a negative zero after a positive one: look one step further *)
      assert (Hz : exists z rest, l2 ++ S754_zero false :: l3 = z :: rest
                                  /\ DOUBLE_LT (S754_zero false) z = false).
      { destruct l2 as [|z l2]; cbn [app] in *.
        - eexists _, _. split; [reflexivity|reflexivity].
        - eexists _, _. split; [reflexivity|].
          destruct H as [_ H].
          apply (no_descent_head _ _ H). apply in_or_app. right. left.
          reflexivity. }
      destruct Hz as (z & rest & E & Hz). rewrite E in *.
      destruct H as [Hzy _].
      assert (Hzero : exists s, z = S754_zero s).
      { destruct z as [s|s| |s m e]; [exists s; reflexivity| | |];
          try destruct s; try discriminate Hz; try discriminate Hzy. }
      destruct Hzero as [s ->].
      exists 1%nat. rewrite deltas_nth_error. cbn [nth_error].
      destruct s; reflexivity.
Qed.

Lemma perm_two_occurrences {A : Type} (a b : A) (l s : list A) :
  Permutation (a :: b :: l) s ->
  exists s1 s2 s3,
    s = s1 ++ a :: s2 ++ b :: s3 \/ s = s1 ++ b :: s2 ++ a :: s3.
Proof.
  intros P.
  assert (Ha : In a s) by (apply (Permutation_in _ P); left; reflexivity).
  apply in_split in Ha as (s1 & s2 & ->).
  apply Permutation_cons_app_inv in P.
  assert (Hb : In b (s1 ++ s2)) by (apply (Permutation_in _ P); left; reflexivity).
  apply in_app_or in Hb as [Hb|Hb]; apply in_split in Hb as (u & v & ->).
  - exists u, v, s2. right. rewrite <- app_assoc. reflexivity.
  - exists s1, u, v. left. reflexivity.
Qed.

Lemma two_positions_split {A : Type} (l : list A) (j k : nat) (a b : A) :
  (j < k)%nat -> nth_error l j = Some a -> nth_error l k = Some b ->
  exists l1 l2 l3, l = l1 ++ a :: l2 ++ b :: l3.
Proof.
  intros Hjk Ha Hb.
  apply nth_error_split in Ha as (l1 & r & -> & Hl1).
  rewrite nth_error_app2 in Hb by lia.
  replace (k - length l1)%nat with (S (k - length l1 - 1)) in Hb by lia.
  cbn [nth_error] in Hb.
  apply nth_error_split in Hb as (l2 & l3 & -> & _).
  exists l1, l2, l3. reflexivity.
Qed.

(** C10, as stated, fails: two rows sharing the time [+inf] give the
    difference [inf - inf], a NaN, and the entry stays NaN, not 300. *)
Lemma inst_rate_equal_infinite_times :
  exists bs self w,
    fill 2 [row_with F64.infinity 0; row_with F64.infinity 1] = Ok (bs, self, w)
    /\ column time self w = [F64.infinity; F64.infinity]
    /\ F64.nan <> F64.of_Z 300
    /\ forall sort, sort_contract sort ->
         exists w', inst_rate sort self w = Ok ([F64.nan], w').
Proof.
  eexists _, (mkCappedArray (window 2) 2), (mkWorld _ (window 2)).
  split; [vm_compute; reflexivity|].
  split; [vm_compute; reflexivity|].
  split; [vm_compute; discriminate|].
  intros sort Hsort. rewrite (inst_rate_eq sort _ _ Hsort).
  cbv [_view view_upto size items _buf _mi rows mem firstn Nat.min length].
  match goal with
  | |- context [sort ?l] => pose proof (sort_perm sort l Hsort) as P
  end.
  apply Permutation_sym, Permutation_length_2_inv in P.
  destruct P as [E|E]; rewrite E; eexists; f_equal; f_equal;
    vm_compute; reflexivity.
Qed.

(** C10, amended: [inst_rate] never raises.  When two neighbours among the
    sorted rows, as the sort leaves them in the buffer, share an identical
    finite time, their difference is [+0], the division gives [+inf], and
    the cap stores exactly 300 at that entry; and whenever two rows of the
    view share an identical finite time, the result has such an entry equal
    to 300. *)
Theorem inst_rate_equal_times
    (sort : list Row -> list Row) (self : CappedArray) (w : World) :
  sort_contract sort ->
  let v := _view self w in
  exists rates w',
    inst_rate sort self w = Ok (rates, w')
    /\ (let sorted := items w' v in
        Permutation sorted (items w v)
        /\ ascending sorted
        /\ forall i t,
             (i + 1 < length sorted)%nat ->
             time (nth i sorted zero_row) = t ->
             time (nth (i + 1) sorted zero_row) = t ->
             F64.is_finite t = true ->
             F64.sub t t = F64.zero
             /\ F64.div F64.one F64.zero = F64.infinity
             /\ bound_rate F64.infinity = F64.of_Z 300
             /\ nth_error rates i = Some (F64.of_Z 300))
    /\ (forall j k t,
          j <> k ->
          nth_error (column time self w) j = Some t ->
          nth_error (column time self w) k = Some t ->
          F64.is_finite t = true ->
          exists i, nth_error rates i = Some (F64.of_Z 300)).
Proof.
  intros Hsort v. rewrite (inst_rate_eq sort self w Hsort). fold v.
  destruct (sorted_world_view self w (sort (items w v)))
    as (_ & Hitems & _); [apply sort_length, Hsort|].
  fold v in Hitems.
  eexists _, _. split; [reflexivity|].
  rewrite Hitems. cbv zeta.
  set (sorted := sort (items w v)).
  split; [split; [apply sort_perm, Hsort|split; [apply sort_ascending, Hsort|]]|].
  - intros i t Hi Ht0 Ht1 Hfin.
    split; [apply sub_diag_finite, Hfin|].
    split; [reflexivity|]. split; [reflexivity|].
    rewrite nth_error_map, deltas_nth by (rewrite length_map; lia).
    change F64.zero with (time zero_row). rewrite !map_nth, Ht0, Ht1.
    rewrite sub_diag_finite by exact Hfin. reflexivity.
  - intros j k t Hjk Hj Hk Hfin.
    assert (Hsplit : exists l1 l2 l3,
               column time self w = l1 ++ t :: l2 ++ t :: l3).
    { destruct (Nat.lt_total j k) as [Hlt|[Heq|Hgt]]; [|contradiction|].
      - apply (two_positions_split _ j k); assumption.
      - apply (two_positions_split _ k j); assumption. }
    destruct Hsplit as (l1 & l2 & l3 & E).
    assert (P : Permutation (t :: t :: l1 ++ l2 ++ l3) (map time sorted)).
    { transitivity (column time self w).
      - rewrite E. transitivity (t :: l1 ++ l2 ++ t :: l3).
        + apply perm_skip. rewrite !app_assoc. apply Permutation_middle.
        + apply Permutation_middle.
      - unfold column. fold v. apply Permutation_map. symmetry.
        apply sort_perm, Hsort. }
    apply perm_two_occurrences in P as (s1 & s2 & s3 & P).
    assert (E' : map time sorted = s1 ++ t :: s2 ++ t :: s3)
      by (destruct P; assumption).
    pose proof (ascending_no_descent sorted (sort_ascending sort _ Hsort)) as Hasc.
    rewrite E' in *.
    destruct (zero_delta_exists s1 s2 s3 t Hfin Hasc) as [i Hi].
    exists i. rewrite nth_error_map, Hi. reflexivity.
Qed.

Lemma inst_rate_equal_times_witness :
  exists bs self w,
    fill 4 [row_with (F64.of_Z 7) 0; row_with (F64.of_Z 3) 1;
            row_with (F64.of_Z 7) 2] = Ok (bs, self, w)
    /\ exists rates w',
         inst_rate insertion_sort self w = Ok (rates, w')
         /\ exists i, nth_error rates i = Some (F64.of_Z 300).
Proof.
  eexists _, (mkCappedArray (window 4) 3), (mkWorld _ (window 4)).
  split; [vm_compute; reflexivity|].
  match goal with
  | |- exists rates w', inst_rate _ ?s ?w = _ /\ _ =>
      destruct (inst_rate_equal_times insertion_sort s w insertion_sort_contract)
        as (rates & w' & E & _ & H)
  end.
  exists rates, w'. split; [exact E|].
  apply (H 0%nat 2%nat (F64.of_Z 7)).
  - discriminate.
  - reflexivity.
  - reflexivity.
  - reflexivity.
Defined.

(** * Further properties of the module *)

(** ** Rows kept by a run of inserts *)

Lemma setitem_app {A : Type} (pre : list A) (r v : A) (rest : list A) :
  setitem (pre ++ r :: rest) (length pre) v = pre ++ v :: rest.
Proof.
  induction pre as [|x pre IH]; cbn [app length setitem]; [reflexivity|].
  rewrite IH. reflexivity.
Qed.

Lemma insert_all_first_lap (values : list Row) :
  forall (self : CappedArray) (w : World) (pre rest : list Row),
    mem w = pre ++ rest ->
    _mi self = length pre ->
    rows (_buf self) = length (mem w) ->
    (length values <= length rest)%nat ->
    exists bs w',
      insert_all self values w
        = Ok (bs, mkCappedArray (_buf self) (_mi self + length values), w')
      /\ mem w' = pre ++ values ++ skipn (length values) rest
      /\ cls_getitem w' = cls_getitem w.
Proof.
  induction values as [|v values IH]; intros self w pre rest Hmem Hmi Hrows Hlen.
  - exists [], w. cbn [insert_all length skipn app]. rewrite Nat.add_0_r.
    destruct self; auto.
  - destruct rest as [|r rest]; cbn [length] in Hlen; [lia|].
    assert (Hsz : size w (_buf self) = length (pre ++ r :: rest))
      by (rewrite size_window, Hrows, Hmem; lia).
    cbn [insert_all]. rewrite insert_ok
      by (rewrite Hsz, length_app; cbn [length]; lia).
    cbn [bind]. rewrite Hsz, Hmi.
    rewrite Nat.mod_small by (rewrite length_app; cbn [length]; lia).
    rewrite Hmem, setitem_app.
    set (w1 := mkWorld (pre ++ v :: rest) (cls_getitem w)).
    set (self1 := mkCappedArray (_buf self) (length pre + 1)).
    destruct (IH self1 w1 (pre ++ [v]) rest) as (bs & w' & E & Hm & Hc).
    + cbn [mem w1]. rewrite <- app_assoc. reflexivity.
    + cbn [_mi self1]. rewrite length_app. reflexivity.
    + cbn [_buf self1 mem w1]. rewrite Hrows, Hmem, !length_app.
      reflexivity.
    + lia.
    + rewrite E. cbn [bind]. eexists _, w'. split; [|split].
      * cbn [_buf _mi self1 length].
        replace (length pre + S (length values))%nat
          with (length pre + 1 + length values)%nat by lia.
        reflexivity.
      * rewrite Hm, <- app_assoc. reflexivity.
      * rewrite Hc. reflexivity.
Qed.

(** Before the buffer is full, what was inserted is what is read: after
    [k <= capacity] inserts into a fresh buffer the stored rows are the
    inserted records in insertion order followed by the zero rows never
    written, every column is the column of the inserted records, and
    [index] is [k]. *)
Theorem insert_then_read_first_lap (capacity : nat) (values : list Row) :
  (length values <= capacity)%nat ->
  exists bs self w,
    fill capacity values = Ok (bs, self, w)
    /\ index self = length values
    /\ mem w = values ++ repeat zero_row (capacity - length values)
    /\ forall (A : Type) (field : Row -> A),
         column field self w = map field values.
Proof.
  intros Hlen. unfold fill, new_array, __init__. cbn [fst snd].
  set (w0 := mkWorld _ _). set (self0 := mkCappedArray _ _).
  destruct (insert_all_first_lap values self0 w0 [] (repeat zero_row capacity))
    as (bs & w & E & Hmem & _).
  - reflexivity.
  - reflexivity.
  - cbn [_buf self0 rows mem w0]. rewrite repeat_length. reflexivity.
  - rewrite repeat_length. exact Hlen.
  - exists bs, (mkCappedArray (window capacity) (length values)), w.
    cbn [_buf _mi self0 Nat.add app] in *.
    assert (Hskip : skipn (length values) (repeat zero_row capacity)
                    = repeat zero_row (capacity - length values)).
    { replace capacity with (length values + (capacity - length values))%nat
        at 1 by lia.
      rewrite repeat_app, skipn_app, repeat_length, Nat.sub_diag.
      rewrite skipn_all2 by (rewrite repeat_length; lia). reflexivity. }
    rewrite Hskip in Hmem.
    split; [exact E|].
    split; [reflexivity|]. split; [exact Hmem|].
    intros A field. unfold column, items. rewrite view_rows.
    cbn [_buf _mi rows]. rewrite Hmem, length_app, repeat_length.
    replace (Nat.min (Nat.min capacity (length values + (capacity - length values)))
                     (length values)) with (length values) by lia.
    rewrite firstn_app, Nat.sub_diag, firstn_O, app_nil_r.
    rewrite firstn_all. reflexivity.
Qed.

Lemma insert_then_read_first_lap_witness :
  exists bs self w,
    fill 4 [row_with half 7; row_with F64.one 9] = Ok (bs, self, w)
    /\ index self = 2%nat
    /\ column num_failed_calls self w = [7; 9].
Proof.
  destruct (insert_then_read_first_lap 4 [row_with half 7; row_with F64.one 9])
    as (bs & self & w & E & Hi & _ & Hcol).
  - cbn [length]. lia.
  - exists bs, self, w. split; [exact E|]. split; [exact Hi|].
    apply (Hcol Z num_failed_calls).
Defined.

Lemma mod_add_multiple (j q c : nat) :
  (j < c)%nat -> ((j + q * c) mod c = j)%nat.
Proof.
  intros Hj. rewrite Nat.Div0.mod_add. apply Nat.mod_small, Hj.
Qed.

(** Once the buffer has wrapped, the view is the last [capacity] records
    rotated: with [k] inserts and [r = k mod capacity], slots [0 .. r-1]
    hold the [r] newest records and slots [r .. capacity-1] the older ones,
    each group in insertion order; every column reads in that order. *)
Theorem view_after_wrap (capacity : nat) (values : list Row) :
  (0 < capacity)%nat -> (capacity <= length values)%nat ->
  let k := length values in
  let r := (k mod capacity)%nat in
  let kept := skipn (k - r) values
              ++ firstn (capacity - r) (skipn (k - capacity) values) in
  exists bs self w,
    fill capacity values = Ok (bs, self, w)
    /\ index self = k
    /\ mem w = kept
    /\ forall (A : Type) (field : Row -> A), column field self w = map field kept.
Proof.
  intros Hcap Hk k r kept.
  destruct (fill_keeps_last_rows capacity values Hcap) as (bs & self & w & E & P).
  destruct (fill_ok capacity values Hcap) as (w0 & E0 & Hlen).
  rewrite E in E0. injection E0 as -> -> ->.
  assert (Ek : length values = k) by reflexivity. clearbody k.
  rewrite Ek in *.
  assert (Hr : (r < capacity)%nat) by (apply Nat.mod_upper_bound; lia).
  pose proof (Nat.div_mod_eq k capacity) as Hdiv. fold r in Hdiv.
  set (q := (k / capacity)%nat) in *.
  assert (Hq : exists q', q = S q').
  { destruct q as [|q']; [|eauto]. rewrite Nat.mul_0_r in Hdiv. lia. }
  destruct Hq as [q' Hq']. rewrite Hq', Nat.mul_succ_r in Hdiv.
  set (cq := (capacity * q')%nat) in *.
  assert (Hcq : cq = (q' * capacity)%nat) by (unfold cq; lia).
  assert (Hmem : mem w0 = kept).
  { apply nth_error_ext. intros j. unfold kept.
    destruct (Nat.lt_ge_cases j r) as [Hj|Hj].
    - rewrite nth_error_app1 by (rewrite length_skipn; lia).
      rewrite nth_error_skipn.
      rewrite <- (P (k - r + j)%nat) by lia.
      f_equal. replace (k - r + j)%nat with (j + S q' * capacity)%nat by lia.
      symmetry. apply mod_add_multiple. lia.
    - destruct (Nat.lt_ge_cases j capacity) as [Hjc|Hjc].
      + rewrite nth_error_app2 by (rewrite length_skipn; lia).
        rewrite length_skipn, Ek, nth_error_firstn.
        destruct (Nat.ltb_spec (j - (k - (k - r))) (capacity - r)); [|lia].
        rewrite nth_error_skipn.
        rewrite <- (P (k - capacity + (j - (k - (k - r))))%nat) by lia.
        f_equal.
        replace (k - capacity + (j - (k - (k - r))))%nat
          with (j + q' * capacity)%nat by lia.
        symmetry. apply mod_add_multiple. lia.
      + rewrite (proj2 (nth_error_None _ _)) by lia.
        symmetry. apply nth_error_None.
        rewrite length_app, length_skipn, length_firstn, length_skipn, Ek.
        lia. }
  eexists _, _, w0. split; [exact E|]. split; [reflexivity|].
  split; [exact Hmem|].
  intros A field. unfold column, items. rewrite view_rows.
  cbn [_buf _mi rows]. rewrite Hlen.
  replace (Nat.min (Nat.min capacity capacity) k)
    with capacity by lia.
  rewrite firstn_all2 by lia. rewrite Hmem. reflexivity.
Qed.

Lemma view_after_wrap_witness :
  exists bs self w,
    fill 4 six_rows = Ok (bs, self, w)
    /\ column num_failed_calls self w = [3; 5; 1; 2].
Proof.
  destruct (view_after_wrap 4 six_rows) as (bs & self & w & E & _ & _ & Hcol).
  - lia.
  - cbn [length six_rows map]. lia.
  - exists bs, self, w. split; [exact E|].
    apply (Hcol Z num_failed_calls).
Defined.

Lemma insert_signals_rollover_witness :
  exists bs self w,
    fill 3 (repeat zero_row 8) = Ok (bs, self, w)
    /\ exists b, nth_error bs 6 = Some b
       /\ (b = true <-> (6 mod 3 = 0 /\ 3 <= 6)%nat).
Proof.
  apply (insert_signals_rollover 3 (repeat zero_row 8) 6); cbn [length repeat]; lia.
Defined.

(** ** Buffers without rows *)

(** A buffer of size 0 accepts no record: its first [insert] raises
    [ZeroDivisionError] (from [_mi % 0]); and so does an [insert] through
    the view of a buffer that holds no record yet, whatever its capacity,
    because that view is the empty slice. *)
Theorem insert_without_rows_raises (capacity : nat) (value : Row) (values : list Row) :
  fill 0 (value :: values) = Raise ZeroDivisionError
  /\ (let '(self, w) := new_array capacity in
      let '(v, w') := view self w in
      insert v value w' = Raise ZeroDivisionError).
Proof.
  split; [reflexivity|].
  unfold new_array, view, __init__. cbv beta iota zeta.
  apply insert_zero_capacity.
  cbn [_buf]. rewrite size_window. unfold _view, view_upto. cbn [rows _mi].
  lia.
Qed.

(** ** Subscript access *)

Lemma fill_world (capacity : nat) (values : list Row) :
  (0 < capacity)%nat ->
  exists bs w,
    fill capacity values
      = Ok (bs, mkCappedArray (window capacity) (length values), w)
    /\ length (mem w) = capacity
    /\ cls_getitem w = window capacity.
Proof.
  intros Hcap. unfold fill, new_array, __init__.
  set (w0 := mkWorld _ _). set (self0 := mkCappedArray _ _).
  assert (Hsz : size w0 (_buf self0) = capacity).
  { rewrite size_window. cbn [_buf self0 rows mem w0].
    rewrite repeat_length. lia. }
  destruct (insert_all_ok values self0 w0) as (w & E & Hmem & Hcls).
  { rewrite Hsz. lia. }
  eexists _, w. split; [exact E|].
  cbn [mem cls_getitem w0] in *. rewrite repeat_length in Hmem. auto.
Qed.

(** Subscripting an instance ([obj[name]]) goes through the class attribute
    [__getitem__], which every construction rebinds: it reads the array of
    the instance constructed last, not the current view.  On a buffer that
    was only filled, it reads all [capacity] rows, written or not; after a
    view was taken and more records were inserted, it still reads the rows
    that view had, while attribute access ([obj.name]) follows the inserts. *)
Theorem subscript_reads_last_constructed
    (capacity : nat) (values more : list Row) :
  (0 < capacity)%nat ->
  exists bs self w,
    fill capacity values = Ok (bs, self, w)
    /\ (forall (A : Type) (field : Row -> A),
          getitem_column field w = map field (mem w)
          /\ length (getitem_column field w) = capacity
          /\ length (column field self w) = Nat.min (length values) capacity)
    /\ let '(_, w1) := view self w in
       exists bs' self' w',
         insert_all self more w1 = Ok (bs', self', w')
         /\ forall (A : Type) (field : Row -> A),
              getitem_column field w'
                = map field (firstn (Nat.min (length values) capacity) (mem w'))
              /\ column field self' w'
                = map field (firstn (Nat.min (length values + length more) capacity)
                                    (mem w')).
Proof.
  intros Hcap.
  destruct (fill_world capacity values Hcap) as (bs & w & E & Hlen & Hcls).
  eexists _, _, w. split; [exact E|]. split.
  - intros A field. unfold getitem_column, column, items.
    rewrite Hcls, view_rows. cbn [rows _buf _mi].
    rewrite firstn_all2 by lia.
    rewrite !length_map, length_firstn, Hlen.
    repeat split; lia.
  - unfold view, __init__.
    set (self := mkCappedArray (window capacity) (length values)).
    set (w1 := mkWorld (mem w) (_view self w)).
    assert (Hsz : size w1 (_buf self) = capacity)
      by (rewrite size_window; cbn [_buf self rows mem w1]; lia).
    destruct (insert_all_ok more self w1) as (w' & E' & Hmem' & Hcls').
    { rewrite Hsz. lia. }
    eexists _, _, w'. split; [exact E'|].
    intros A field. unfold getitem_column, column, items.
    rewrite Hcls', view_rows. cbn [cls_getitem w1 _buf _mi self rows].
    rewrite view_rows. cbn [_buf _mi self rows mem w1] in *.
    rewrite Hmem', Hlen.
    split; do 2 f_equal; lia.
Qed.

Lemma subscript_reads_last_constructed_witness :
  exists bs self w,
    fill 4 [row_with half 7] = Ok (bs, self, w)
    /\ length (getitem_column time w) = 4%nat
    /\ length (column time self w) = 1%nat.
Proof.
  destruct (subscript_reads_last_constructed 4 [row_with half 7] [])
    as (bs & self & w & E & H & _); [lia|].
  exists bs, self, w. split; [exact E|].
  destruct (H f64 time) as (_ & H1 & H2). split; [exact H1|exact H2].
Defined.

(** ** Loaded arrays *)

(** A loaded array is presented whole: the view covers every row of the
    file in file order, and [index] is the number of rows. *)
Theorem loaded_buffer_is_full (array : list Row) :
  let '(self, w) := load array in
  index self = length array
  /\ mem w = array
  /\ size w (_view self w) = length array
  /\ forall (A : Type) (field : Row -> A),
       column field self w = map field array
       /\ getitem_column field w = map field array.
Proof.
  unfold load, __init__. cbn [mem]. split; [reflexivity|]. split; [reflexivity|].
  assert (Hv : _view (mkCappedArray (window (length array)) (length array))
                     (mkWorld array (window (length array)))
               = window (length array)).
  { unfold _view, view_upto. rewrite size_window. cbn [_buf _mi rows mem].
    f_equal. lia. }
  split.
  - rewrite Hv, size_window. cbn [rows mem]. lia.
  - intros A field. unfold column, getitem_column. rewrite Hv.
    unfold items. cbn [rows mem cls_getitem].
    rewrite firstn_all. auto.
Qed.

(** The first [insert] into a loaded array overwrites its first row,
    whatever the array holds, and reports a roll over; a loaded array
    without rows accepts no record. *)
Theorem insert_after_load (array : list Row) (value : Row) :
  let '(self, w) := load array in
  match array with
  | [] => insert self value w = Raise ZeroDivisionError
  | _ :: rest =>
      exists self' w',
        insert self value w = Ok (true, self', w')
        /\ index self' = S (length array)
        /\ mem w' = value :: rest
        /\ forall (A : Type) (field : Row -> A),
             column field self' w' = field value :: map field rest
  end.
Proof.
  unfold load, __init__. cbn [mem]. destruct array as [|r rest].
  - reflexivity.
  - set (self := mkCappedArray _ _). set (w := mkWorld _ _).
    assert (Hsz : size w (_buf self) = S (length rest))
      by (rewrite size_window; cbn [_buf self rows mem w length]; lia).
    rewrite insert_ok by (rewrite Hsz; lia).
    rewrite Hsz. cbn [_mi self length].
    rewrite Nat.Div0.mod_same.
    assert (Hroll : rollover (S (length rest)) (S (length rest)) = true).
    { unfold rollover. rewrite Nat.Div0.mod_same. cbn [Nat.eqb].
      rewrite andb_true_r. apply Z.gtb_lt. lia. }
    rewrite Hroll. eexists _, _. split; [reflexivity|].
    cbn [index _mi mem w setitem]. split; [lia|]. split; [reflexivity|].
    intros A field. unfold column, items. rewrite view_rows.
    cbn [_buf _mi rows mem length self].
    replace (Nat.min (Nat.min (S (length rest)) (S (length rest)))
                     (S (length rest) + 1)) with (S (length rest)) by lia.
    cbn [firstn map]. rewrite firstn_all. reflexivity.
Qed.

(** ** Views *)

Lemma view_of_view_window (self : CappedArray) (w w' : World) :
  mem w' = mem w ->
  _view (mkCappedArray (_view self w) (_mi self)) w' = _view self w.
Proof.
  intros Hmem. unfold _view at 1. unfold view_upto.
  rewrite size_window, Hmem. cbn [_buf _mi].
  pose proof (view_rows self w) as Hn.
  destruct (_view self w) as [n]. cbn [rows] in *. f_equal. lia.
Qed.

(** Taking a view stores nothing, and the view of a view is that view:
    same array, same insertion index, same columns. *)
Theorem view_of_view (self : CappedArray) (w : World) :
  let '(v, w1) := view self w in
  let '(v2, w2) := view v w1 in
  v2 = v /\ mem w1 = mem w /\ mem w2 = mem w
  /\ forall (A : Type) (field : Row -> A),
       column field v w1 = column field self w
       /\ column field v2 w2 = column field self w.
Proof.
  unfold view, __init__. cbv beta iota zeta. cbn [_buf _mi mem].
  rewrite view_of_view_window by reflexivity.
  split; [reflexivity|]. split; [reflexivity|]. split; [reflexivity|].
  intros A field. unfold column.
  rewrite !view_of_view_window by reflexivity.
  split; reflexivity.
Qed.

Lemma setitem_nth_error_0 {A : Type} (a : list A) (v : A) :
  a <> [] -> nth_error (setitem a 0 v) 0 = Some v.
Proof. destruct a; [congruence|reflexivity]. Qed.

(** A view shares the buffer's memory but counts its rows from zero: an
    [insert] through the view of a buffer that is not yet full (holding
    [1 <= _mi <= capacity] records) overwrites the buffer's first row,
    returns [True], and leaves every other row as it was. *)
Theorem insert_through_view (self : CappedArray) (w : World) (value : Row) :
  (1 <= _mi self <= size w (_buf self))%nat ->
  let '(v, w1) := view self w in
  exists v' w2,
    insert v value w1 = Ok (true, v', w2)
    /\ index v' = S (_mi self)
    /\ mem w2 = setitem (mem w) 0 value
    /\ (forall j, j <> 0%nat -> nth_error (mem w2) j = nth_error (mem w) j)
    /\ forall (A : Type) (field : Row -> A),
         nth_error (column field self w2) 0 = Some (field value).
Proof.
  intros Hmi. unfold view, __init__.
  set (v := mkCappedArray (_view self w) (_mi self)).
  set (w1 := mkWorld (mem w) (_view self w)).
  pose proof (size_window w (_buf self)) as Hsz0.
  assert (Hrows : rows (_view self w) = _mi self)
    by (rewrite view_rows; lia).
  assert (Hsz : size w1 (_buf v) = _mi self).
  { rewrite size_window. cbn [_buf v mem w1]. lia. }
  rewrite insert_ok by (rewrite Hsz; lia).
  rewrite Hsz. cbn [_mi v]. rewrite Nat.Div0.mod_same.
  assert (Hroll : rollover (_mi self) (_mi self) = true).
  { unfold rollover. rewrite Nat.Div0.mod_same. cbn [Nat.eqb].
    rewrite andb_true_r. apply Z.gtb_lt. lia. }
  rewrite Hroll. eexists _, _. split; [reflexivity|].
  cbn [index _mi mem w1]. split; [lia|]. split; [reflexivity|].
  split; [intros j Hj; apply setitem_other, Hj|].
  intros A field. unfold column, items. rewrite view_rows.
  cbn [mem]. rewrite setitem_length, nth_error_map, nth_error_firstn.
  destruct (Nat.ltb_spec 0 (Nat.min (Nat.min (rows (_buf self)) (length (mem w))) (_mi self)));
    [|lia].
  rewrite setitem_nth_error_0; [reflexivity|].
  destruct (mem w); [cbn [length] in *; lia|discriminate].
Qed.

Lemma insert_through_view_witness :
  exists bs self w,
    fill 4 [row_with half 7; row_with F64.one 9] = Ok (bs, self, w)
    /\ let '(v, w1) := view self w in
       exists v' w2,
         insert v (row_with F64.zero 5) w1 = Ok (true, v', w2)
         /\ column num_failed_calls self w2 = [5; 9].
Proof.
  eexists _, (mkCappedArray (window 4) 2),
          (mkWorld [row_with half 7; row_with F64.one 9; zero_row; zero_row]
                   (window 4)).
  split; [reflexivity|].
  pose proof (insert_through_view
                (mkCappedArray (window 4) 2)
                (mkWorld [row_with half 7; row_with F64.one 9; zero_row; zero_row]
                         (window 4))
                (row_with F64.zero 5)) as H.
  cbv beta iota zeta in H |- *. unfold view, __init__ in H |- *.
  destruct H as (v' & w2 & E & _ & Hmem & _).
  - vm_compute. lia.
  - exists v', w2. split; [exact E|].
    unfold column, items. rewrite view_rows, Hmem. reflexivity.
Defined.

(** ** [seizure_fail_rate] with its default arguments *)

(** Called without arguments ([start=0], [end=-1]) the rate spans the whole
    view: on an empty view it raises [IndexError], on a view of one row
    [ZeroDivisionError], and from two rows on it is the wrapped difference
    of the last and the first counter over [length - 1];
    [answer_seizure_ratio] raises the same and returns one minus it. *)
Theorem seizure_fail_rate_defaults (self : CappedArray) (w : World) :
  let array := column num_failed_calls self w in
  let L := length array in
  let whole :=
    F64.div (F64.of_Z (uint32 (nth (L - 1) array 0 - nth 0 array 0)))
            (F64.of_Z (Z.of_nat L - 1)) in
  (L = 0%nat ->
     seizure_fail_rate self w 0 (-1) = Raise IndexError
     /\ answer_seizure_ratio self w 0 (-1) = Raise IndexError)
  /\ (L = 1%nat ->
     seizure_fail_rate self w 0 (-1) = Raise ZeroDivisionError
     /\ answer_seizure_ratio self w 0 (-1) = Raise ZeroDivisionError)
  /\ ((2 <= L)%nat ->
     seizure_fail_rate self w 0 (-1) = Ok whole
     /\ answer_seizure_ratio self w 0 (-1) = Ok (F64.sub F64.one whole)).
Proof.
  intros array L whole. unfold answer_seizure_ratio.
  rewrite seizure_fail_rate_eq. fold array.
  unfold seizure_fail_rate_cases, normalized_end, in_range. fold L.
  cbn [Z.ltb Z.compare].
  split; [|split]; intros HL.
  - rewrite HL. split; reflexivity.
  - rewrite HL. split; reflexivity.
  - destruct (Z.leb_spec (- Z.of_nat L) (Z.of_nat L + -1)); [|lia].
    destruct (Z.ltb_spec (Z.of_nat L + -1) (Z.of_nat L)); [|lia].
    destruct (Z.leb_spec (- Z.of_nat L) 0); [|lia].
    destruct (Z.ltb_spec 0 (Z.of_nat L)); [|lia].
    destruct (Z.eqb_spec 0 (Z.of_nat L + -1)); [lia|].
    cbn [andb bind]. unfold item. fold L.
    destruct (Z.ltb_spec (Z.of_nat L + -1) 0); [lia|].
    cbn [Z.ltb Z.compare Z.to_nat].
    replace (Z.to_nat (Z.of_nat L + -1)) with (L - 1)%nat by lia.
    replace (Z.of_nat L + -1 - 0) with (Z.of_nat L - 1) by lia.
    split; reflexivity.
Qed.

Lemma seizure_fail_rate_defaults_witness :
  seizure_fail_rate (mkCappedArray (window 4) 2)
      (mkWorld [row_with half 7; row_with F64.one 9; zero_row; zero_row]
               (window 4)) 0 (-1)
    = Ok (F64.of_Z 2).
Proof.
  apply (seizure_fail_rate_defaults
           (mkCappedArray (window 4) 2)
           (mkWorld [row_with half 7; row_with F64.one 9; zero_row; zero_row]
                    (window 4))).
  vm_compute. lia.
Defined.

(** ** The sign of [seizure_fail_rate] *)

(** A positive integer below [2^53] converts to a finite positive float. *)
Lemma of_Z_small_finite (p : positive) :
  Zpos p < 2 ^ 53 -> exists m e, F64.of_Z (Zpos p) = S754_finite false m e.
Proof.
  intros Hp.
  pose proof (digits2_bounds p) as [Hlo _].
  assert (Hd : Zpos (digits2_pos p) <= 53).
  { destruct (Z.le_gt_cases (Zpos (digits2_pos p)) 53) as [H|H]; [exact H|].
    assert (2 ^ 53 <= 2 ^ (Zpos (digits2_pos p) - 1))
      by (apply Z.pow_le_mono_r; lia).
    lia. }
  unfold F64.of_Z, binary_normalize, binary_round.
  pose proof (shl_align_digits p 0
                (fexp F64.prec F64.emax (Zpos (digits2_pos p) + 0))) as Hdig.
  assert (Hf : fexp F64.prec F64.emax (Zpos (digits2_pos p) + 0)
               = Zpos (digits2_pos p) - 53)
    by (unfold fexp, emin, F64.prec, F64.emax; lia).
  assert (He : snd (shl_align p 0
                      (fexp F64.prec F64.emax (Zpos (digits2_pos p) + 0)))
               = Zpos (digits2_pos p) - 53).
  { rewrite Hf. unfold shl_align.
    destruct (Zpos (digits2_pos p) - 53 - 0) as [|q|q] eqn:Eq; cbn [snd]; lia. }
  destruct (shl_align p 0 _) as [mz ez]. cbn [fst snd] in *.
  exists mz, ez. apply binary_round_aux_canonical; lia.
Qed.

Lemma div_pos_not_negative (mx : positive) (ex : Z) (my : positive) (ey : Z) :
  not_negative (F64.div (S754_finite false mx ex) (S754_finite false my ey)).
Proof.
  unfold F64.div, SFdiv, SFdiv_core_binary.
  set (m' := match _ with Z0 => _ | Zpos _ => _ | Zneg _ => _ end).
  assert (Hm' : 0 <= m').
  { unfold m'.
    match goal with
    | |- 0 <= match ?s with Z0 => _ | Zpos _ => _ | Zneg _ => _ end =>
        destruct s as [|q|q]
    end; try lia.
    apply Z.shiftl_nonneg. lia. }
  pose proof (Z.div_pos m' (Zpos my) Hm' ltac:(lia)) as Hq.
  unfold Z.div in Hq.
  destruct (Z.div_eucl m' (Zpos my)) as [q r].
  destruct (binary_round_aux_shape (xorb false false) q
              (Z.min (fexp F64.prec F64.emax
                        (Zdigits2 (Zpos mx) + ex - (Zdigits2 (Zpos my) + ey)))
                     (ex - ey))
              (new_location (Zpos my) r) Hq) as (m3 & e3 & H3 & _ & E).
  rewrite E. destruct m3 as [|m|m]; [exact I| |lia].
  destruct (e3 <=? F64.emax - F64.prec); exact I.
Qed.

(** Over a forward window ([start] before the normalized end, both in
    range) [seizure_fail_rate] returns a number that is never negative and
    never NaN: the difference of the counters is taken in [uint32], so a
    counter that went down wraps to a large positive difference. *)
Theorem seizure_fail_rate_forward_sign
    (self : CappedArray) (w : World) (start end_ : Z) :
  let array := column num_failed_calls self w in
  let n := length array in
  let end' := normalized_end n end_ in
  in_range n end' = true -> in_range n start = true -> start < end' ->
  exists r,
    seizure_fail_rate self w start end_ = Ok r
    /\ not_negative r
    /\ F64.is_nan r = false
    /\ F64.ltb r F64.zero = false
    /\ F64.leb F64.zero r = true.
Proof.
  intros array n end' He Hs Hlt. rewrite seizure_fail_rate_eq.
  unfold seizure_fail_rate_cases. fold array n end'.
  rewrite He, Hs. cbn [andb].
  destruct (Z.eqb_spec start end'); [lia|].
  eexists. split; [reflexivity|].
  set (k := uint32 (item array end' - item array start)).
  assert (Hk : 0 <= k < 2 ^ 32) by (apply Z.mod_pos_bound; lia).
  assert (Hnum : F64.of_Z k = S754_zero false
                 \/ exists m e, F64.of_Z k = S754_finite false m e).
  { destruct k as [|p|p]; [left; reflexivity| |lia].
    right. apply of_Z_small_finite.
    assert (2 ^ 32 < 2 ^ 53) by (apply Z.pow_lt_mono_r; lia). lia. }
  assert (Hden : nonzero_signed false (F64.of_Z (end' - start))).
  { destruct (end' - start) as [|p|p] eqn:Ed; try lia.
    apply binary_round_nonzero. unfold emin, F64.prec, F64.emax. lia. }
  assert (Hnn : not_negative (F64.div (F64.of_Z k) (F64.of_Z (end' - start)))).
  { destruct (F64.of_Z (end' - start)) as [s|s| |s m e];
      cbn [nonzero_signed] in Hden; try contradiction; subst s;
      destruct Hnum as [->|(m0 & e0 & ->)]; try exact I.
    apply div_pos_not_negative. }
  split; [exact Hnn|].
  destruct (F64.div (F64.of_Z k) (F64.of_Z (end' - start))) as [[|]|[|]| |[|] ? ?];
    cbn [not_negative] in Hnn; try contradiction; repeat split.
Qed.

Lemma seizure_fail_rate_forward_sign_witness :
  exists r,
    seizure_fail_rate (mkCappedArray (window 4) 2)
        (mkWorld [row_with half 9; row_with F64.one 7; zero_row; zero_row]
                 (window 4)) 0 1 = Ok r
    /\ not_negative r.
Proof.
  destruct (seizure_fail_rate_forward_sign
              (mkCappedArray (window 4) 2)
              (mkWorld [row_with half 9; row_with F64.one 7; zero_row; zero_row]
                       (window 4)) 0 1) as (r & E & H & _).
  - reflexivity.
  - reflexivity.
  - vm_compute. reflexivity.
  - exists r. split; [exact E|exact H].
Defined.

(** ** [moving_avg]: every window length *)




(** ** [inst_rate] and [wm_rate] on rows in time order *)

Lemma row_lt_after_earlier (x y : Row) :
  DOUBLE_LT (time x) (time y) = true -> row_lt y x = false.
Proof.
  intros H. unfold row_lt, VOID_compare, DOUBLE_compare at 1.
  rewrite (DOUBLE_LT_asym _ _ H), H. reflexivity.
Qed.

Lemma view_same_memory (self : CappedArray) (w w' : World) :
  mem w' = mem w -> _view self w' = _view self w.
Proof.
  intros H. unfold _view, view_upto. rewrite !size_window, H. reflexivity.
Qed.

(** When the rows of the view are in strictly increasing order of time (as
    when records were inserted in time order and the buffer has not
    wrapped; a view of at most one row always is), [inst_rate] changes
    nothing: the memory and every column stay as they were and the rates are
    those of the rows as stored. *)
Theorem inst_rate_keeps_rows_in_time_order
    (sort : list Row -> list Row) (self : CappedArray) (w : World) :
  sort_contract sort ->
  increasing_times (items w (_view self w)) ->
  exists rates w',
    inst_rate sort self w = Ok (rates, w')
    /\ mem w' = mem w
    /\ rates = map rate_of (deltas (column time self w))
    /\ ((size w (_view self w) <= 1)%nat -> rates = [])
    /\ forall (A : Type) (field : Row -> A),
         column field self w' = column field self w.
Proof.
  intros Hsort Hinc.
  rewrite (inst_rate_eq sort self w Hsort), (sort_increasing sort _ Hsort Hinc).
  eexists _, _. split; [reflexivity|]. cbn [mem].
  assert (Hmem : items w (_view self w) ++ skipn (rows (_view self w)) (mem w)
                 = mem w) by apply firstn_skipn.
  split; [exact Hmem|]. split; [reflexivity|]. split.
  - intros Hsz. unfold size in Hsz.
    destruct (items w (_view self w)) as [|x [|y l]]; cbn [length] in Hsz;
      try lia; reflexivity.
  - intros A field. unfold column.
    assert (Hv : _view self (mkWorld (items w (_view self w)
                                      ++ skipn (rows (_view self w)) (mem w))
                                     (_view self w)) = _view self w).
    { apply view_same_memory. exact Hmem. }
    rewrite Hv. unfold items at 1. cbn [mem]. rewrite Hmem. reflexivity.
Qed.

Lemma inst_rate_keeps_rows_in_time_order_witness :
  exists rates w',
    inst_rate insertion_sort (mkCappedArray (window 4) 2)
        (mkWorld [row_with half 7; row_with F64.one 9; zero_row; zero_row]
                 (window 4)) = Ok (rates, w')
    /\ mem w' = [row_with half 7; row_with F64.one 9; zero_row; zero_row].
Proof.
  destruct (inst_rate_keeps_rows_in_time_order insertion_sort
              (mkCappedArray (window 4) 2)
              (mkWorld [row_with half 7; row_with F64.one 9; zero_row; zero_row]
                       (window 4))) as (rates & w' & E & Hmem & _).
  - apply insertion_sort_contract.
  - vm_compute. split; [reflexivity|exact I].
  - exists rates, w'. split; [exact E|exact Hmem].
Defined.

(** [wm_rate] never raises: it returns one value for each rate of
    [inst_rate], the windowed average of those rates with the window
    [min (number of rates) 100], and leaves the buffer as [inst_rate]
    leaves it: the rows of the view sorted by time in place, the slots
    behind them untouched. *)
Theorem wm_rate_total
    (sort : list Row -> list Row) (self : CappedArray) (w : World) :
  sort_contract sort ->
  let v := _view self w in
  exists rates avg w',
    inst_rate sort self w = Ok (rates, w')
    /\ wm_rate sort self w = Ok (avg, w')
    /\ avg = windowed_average rates (Z.min (Z.of_nat (length rates)) 100)
    /\ length avg = length rates
    /\ length avg = (size w v - 1)%nat
    /\ mem w' = items w' v ++ skipn (rows v) (mem w)
    /\ ascending (items w' v)
    /\ Permutation (items w' v) (items w v).
Proof.
  intros Hsort v. unfold wm_rate.
  rewrite (inst_rate_eq sort self w Hsort). fold v. cbn [bind].
  rewrite moving_avg_eq by lia. cbn [bind].
  destruct (sorted_world_view self w (sort (items w v)))
    as (_ & Hitems & _); [apply sort_length, Hsort|].
  fold v in Hitems.
  eexists _, _, _. split; [reflexivity|]. split; [reflexivity|].
  split; [reflexivity|]. rewrite Hitems.
  rewrite windowed_average_length, length_map, deltas_length, length_map,
    (sort_length sort _ Hsort).
  split; [reflexivity|]. split; [reflexivity|]. split; [reflexivity|].
  split; [apply sort_ascending, Hsort|apply sort_perm, Hsort].
Qed.

Lemma wm_rate_total_witness :
  exists rates avg w',
    inst_rate insertion_sort (mkCappedArray (window 4) 3)
        (mkWorld [row_with (F64.of_Z 2) 7; row_with half 9;
                  row_with F64.one 1; zero_row] (window 4)) = Ok (rates, w')
    /\ wm_rate insertion_sort (mkCappedArray (window 4) 3)
        (mkWorld [row_with (F64.of_Z 2) 7; row_with half 9;
                  row_with F64.one 1; zero_row] (window 4)) = Ok (avg, w')
    /\ length avg = 2%nat.
Proof.
  destruct (wm_rate_total insertion_sort (mkCappedArray (window 4) 3)
              (mkWorld [row_with (F64.of_Z 2) 7; row_with half 9;
                        row_with F64.one 1; zero_row] (window 4))
              insertion_sort_contract)
    as (rates & avg & w' & E1 & E2 & _ & _ & Hlen & _).
  exists rates, avg, w'. split; [exact E1|]. split; [exact E2|exact Hlen].
Defined.

(** ** Equal counters, and the same row given twice *)

Lemma div_zero_by_nonzero (s : bool) (d : f64) :
  nonzero_signed s d -> F64.div (S754_zero false) d = S754_zero s.
Proof.
  destruct d as [sd|sd| |sd m e]; cbn [nonzero_signed]; try contradiction;
    intros <-; reflexivity.
Qed.

Lemma of_Z_nonzero_signed (d : Z) :
  d <> 0 -> nonzero_signed (d <? 0) (F64.of_Z d).
Proof.
  intros Hd. destruct d as [|p|p]; [congruence| |];
    apply binary_round_nonzero; unfold emin, F64.prec, F64.emax; lia.
Qed.

(** When the counter is the same at both ends of a window of two different
    in-range indices, the fail rate is a zero and the answer seizure ratio
    is exactly [1.0]. *)
Theorem no_new_failures_ratio_is_one
    (self : CappedArray) (w : World) (start end_ : Z) :
  let array := column num_failed_calls self w in
  let n := length array in
  let end' := normalized_end n end_ in
  in_range n end' = true -> in_range n start = true -> start <> end' ->
  item array end' = item array start ->
  seizure_fail_rate self w start end_ = Ok (S754_zero (end' <? start))
  /\ answer_seizure_ratio self w start end_ = Ok F64.one.
Proof.
  intros array n end' He Hs Hne Heq. unfold answer_seizure_ratio.
  rewrite seizure_fail_rate_eq. unfold seizure_fail_rate_cases.
  fold array n end'. rewrite He, Hs, Heq, Z.sub_diag. cbn [andb].
  destruct (Z.eqb_spec start end'); [contradiction|].
  change (F64.of_Z (uint32 0)) with (S754_zero false).
  rewrite (div_zero_by_nonzero (end' - start <? 0))
    by (apply of_Z_nonzero_signed; lia).
  replace (end' - start <? 0) with (end' <? start)
    by (destruct (Z.ltb_spec end' start), (Z.ltb_spec (end' - start) 0);
        try reflexivity; lia).
  cbn [bind]. split; [reflexivity|].
  destruct (end' <? start); reflexivity.
Qed.

Lemma no_new_failures_ratio_is_one_witness :
  answer_seizure_ratio (mkCappedArray (window 4) 3)
      (mkWorld [row_with half 7; row_with F64.one 9; row_with F64.one 7;
                zero_row] (window 4)) 0 2
    = Ok F64.one.
Proof.
  apply (no_new_failures_ratio_is_one
           (mkCappedArray (window 4) 3)
           (mkWorld [row_with half 7; row_with F64.one 9; row_with F64.one 7;
                     zero_row] (window 4)) 0 2);
    vm_compute; congruence.
Defined.

(** Only a negative [end] is normalized.  Naming the same row twice through
    a negative index ([start = end < 0], in range) therefore does not raise:
    [end] becomes [length + end], the divisor is [length], and the result is
    [+0.0]. *)
Theorem seizure_fail_rate_same_negative_index
    (self : CappedArray) (w : World) (i : Z) :
  let array := column num_failed_calls self w in
  let n := length array in
  - Z.of_nat n <= i < 0 ->
  seizure_fail_rate self w i i = Ok F64.zero
  /\ seizure_fail_rate self w (Z.of_nat n + i) i = Raise ZeroDivisionError.
Proof.
  intros array n Hi.
  assert (Hend : normalized_end n i = Z.of_nat n + i)
    by (unfold normalized_end; destruct (Z.ltb_spec i 0); lia).
  assert (He : in_range n (Z.of_nat n + i) = true).
  { unfold in_range. apply andb_true_iff. split;
      [apply Z.leb_le|apply Z.ltb_lt]; lia. }
  assert (Hs : in_range n i = true).
  { unfold in_range. apply andb_true_iff. split;
      [apply Z.leb_le|apply Z.ltb_lt]; lia. }
  rewrite !seizure_fail_rate_eq. unfold seizure_fail_rate_cases.
  fold array n. rewrite Hend, He, Hs. cbn [andb]. split.
  - destruct (Z.eqb_spec i (Z.of_nat n + i)); [lia|].
    assert (Hitem : item array (Z.of_nat n + i) = item array i).
    { unfold item. fold n.
      destruct (Z.ltb_spec (Z.of_nat n + i) 0), (Z.ltb_spec i 0);
        try lia; reflexivity. }
    rewrite Hitem, Z.sub_diag.
    change (F64.of_Z (uint32 0)) with (S754_zero false).
    replace (Z.of_nat n + i - i) with (Z.of_nat n) by lia.
    rewrite (div_zero_by_nonzero false); [reflexivity|].
    replace false with (Z.of_nat n <? 0)
      by (destruct (Z.ltb_spec (Z.of_nat n) 0); [lia|reflexivity]).
    apply of_Z_nonzero_signed. lia.
  - rewrite Z.eqb_refl. reflexivity.
Qed.

Lemma seizure_fail_rate_same_negative_index_witness :
  seizure_fail_rate (mkCappedArray (window 4) 3)
      (mkWorld [row_with half 7; row_with F64.one 9; row_with F64.one 7;
                zero_row] (window 4)) (-1) (-1)
    = Ok F64.zero.
Proof.
  apply (seizure_fail_rate_same_negative_index
           (mkCappedArray (window 4) 3)
           (mkWorld [row_with half 7; row_with F64.one 9; row_with F64.one 7;
                     zero_row] (window 4)) (-1)).
  vm_compute. split; [discriminate|reflexivity].
Defined.
